(** * Audit, normalisation and shaping of OpenStreetMap data
    (p3_openstreetmap.py)

    A shallow embedding of the street-name audit, the two normalisers
    [update_name] and [update_phone_num], and the record shaper
    [shape_element], with the properties the design document states about
    them. *)

From Stdlib Require Import String Ascii NArith.
From stdpp Require Import base list gmap sets.

Local Open Scope N_scope.
Local Open Scope nat_scope.

(** ** Strings

    The script runs under Python 2 and reads its values through ElementTree,
    which hands out text as sequences of code points.  A string is a list of
    code points; [u] reads an ASCII literal, and a code point outside ASCII is
    written as the source writes it, by its number. *)

Definition char := N.
Definition str := list char.

Definition u (s : string) : str := N_of_ascii <$> list_ascii_of_string s.

(** The case tables are CPython's, not the script's: [islower] is the test
    behind [c.islower()] for a one-character string, [toupper] and [tolower]
    the simple case mappings that [capitalize] applies.  The development is
    parametric in them. *)
Class CaseTable := {
  islower : char → bool;
  toupper : char → char;
  tolower : char → char
}.

(** One such table: ASCII and the accented letters of Latin-1 (U+00C0 to
    U+00FF), every other code point taken as uncased.  It serves to run the
    functions on German street names; the theorems below hold for every
    table.  The sharp s (223) is in lower case and has no upper-case code
    point of its own; the upper case of U+00FF is U+0178. *)
Definition latin1_islower (c : char) : bool :=
  ((97 <=? c) && (c <=? 122) || (223 <=? c) && (c <=? 255) && negb (c =? 247))%N.
Definition latin1_isupper (c : char) : bool :=
  ((65 <=? c) && (c <=? 90) || (192 <=? c) && (c <=? 222) && negb (c =? 215))%N.
Definition latin1_toupper (c : char) : char :=
  if negb (latin1_islower c) || (c =? 223)%N then c
  else if (c =? 255)%N then 376%N
  else (c - 32)%N.
Definition latin1_tolower (c : char) : char :=
  if latin1_isupper c then (c + 32)%N else c.

Definition latin1 : CaseTable :=
  {| islower := latin1_islower; toupper := latin1_toupper; tolower := latin1_tolower |}.

Module Py.

(** [s.startswith(p)] *)
Fixpoint startswith (s p : str) : bool :=
  match p, s with
  | [], _ => true
  | _ :: _, [] => false
  | c :: p', d :: s' => (d =? c)%N && startswith s' p'
  end.

(** [s.endswith(p)]: the last [len(p)] code points of [s] are [p]. *)
Definition endswith (s p : str) : bool :=
  startswith (reverse s) (reverse p).

(** [s.find(sub)]: index of the first occurrence, [None] for Python's -1. *)
Fixpoint find (s sub : str) : option nat :=
  if startswith s sub then Some 0
  else match s with
       | [] => None
       | _ :: s' => S <$> find s' sub
       end.

(** [sub in s] *)
Definition contains (sub s : str) : bool := bool_decide (is_Some (find s sub)).

(** [s.lstrip(chars)]: drops leading code points that occur in [chars];
    [chars] is a set of characters, not a prefix. *)
Fixpoint lstrip (s chars : str) : str :=
  match s with
  | [] => []
  | c :: s' => if bool_decide (c ∈ chars) then lstrip s' chars else s
  end.

(** [s.replace(old, new)].  The scan runs left to right over occurrences
    that do not overlap; [skip] counts the code points of a matched [old]
    that are still to be passed over.  With an empty [old] Python puts [new]
    before every code point and at the end. *)
Fixpoint replace_from (skip : nat) (s old new : str) : str :=
  match s with
  | [] => []
  | c :: s' =>
      match skip with
      | S n => replace_from n s' old new
      | O => if startswith s old
             then new ++ replace_from (length old - 1) s' old new
             else c :: replace_from 0 s' old new
      end
  end.

Definition replace (s old new : str) : str :=
  match old with
  | [] => foldr (λ c acc, new ++ c :: acc) new s
  | _ :: _ => replace_from 0 s old new
  end.

(** [s.split(sep, 1)] for a separator that is not empty: at most one split,
    at the first occurrence. *)
Definition split1 (s sep : str) : list str :=
  match find s sep with
  | Some i => [take i s; drop (i + length sep) s]
  | None => [s]
  end.

(** [s.capitalize()]: the first code point in upper case and all the
    others in lower case. *)
Definition capitalize `{CaseTable} (s : str) : str :=
  match s with
  | [] => []
  | c :: s' => toupper c :: (tolower <$> s')
  end.

End Py.

(** ** Phone numbers: [update_phone_num] *)

Definition is_digit (c : char) : bool := (48 <=? c)%N && (c <=? 57)%N.

(** [re.sub('[^0-9]', '', num)] *)
Definition strip_non_digits (num : str) : str := filter (λ c, is_digit c = true) num.

(** Lines 141-150: the value of [num] when control reaches the test for the
    city code.  The test of line 144 is an [if] of its own: it is evaluated
    on the value that line 143 has produced. *)
Definition country_prefix (num : str) : str :=
  let num := strip_non_digits num in
  let num := if Py.startswith num (u "0049")
             then u "+" ++ Py.lstrip num (u "00")
             else num in
  if negb (Py.startswith num (u "49")) then
    if Py.startswith num (u "0")
    then u "+49 " ++ Py.lstrip num (u "0")
    else u "+49 " ++ num
  else u "+49 " ++ Py.lstrip num (u "49").

(** Lines 151-160.  The test ['30' in num] puts both [num_spl[0]] and
    [num_spl[1]] in range (lemma [split1_contains] below), so the total
    lookup never takes its default. *)
Definition city_split (num : str) : str :=
  if Py.contains (u "30") num then
    let num_spl := Py.split1 num (u "30") in
    if bool_decide (length (num_spl !!! 0) ≤ 5)
    then u "+49 30 " ++ num_spl !!! 1
    else num
  else num.

Definition update_phone_num (num : str) : str := city_split (country_prefix num).

(** ** Audit: [audit_street_type], [audit_phone_num] *)

(** Line 32-33.  In the last two literals the escape is [\00] followed by the
    letters [fc]: an octal escape for the code point 0, not [ü]. *)
Definition expected : list str :=
  [ u "Stra" ++ [223%N] ++ u "e"; u "stra" ++ [223%N] ++ u "e";
    u "Allee"; u "allee"; u "Weg"; u "weg"; u "Platz"; u "platz";
    u "Gasse"; u "gasse"; u "Promenade"; u "promenade"; u "Ufer"; u "ufer";
    u "Br" ++ [0%N] ++ u "fccke"; u "br" ++ [0%N] ++ u "fccke" ].

(** The set passed in is mutated in place; here the new set is returned. *)
Definition audit_street_type (street_types : gset str) (street_name : str) : gset str :=
  let counter :=
    foldl (λ counter street_type,
             if Py.contains street_type street_name then counter + 1 else counter)
          0 expected in
  if bool_decide (counter = 0) then {[street_name]} ∪ street_types else street_types.

Definition audit_phone_num (phone_nums : gset str) (num : str) : gset str :=
  if negb (Py.startswith num (u "+49 30 ")) then {[num]} ∪ phone_nums else phone_nums.

(** ** Exceptions *)

Inductive exn := IndexError | TypeError | AttributeError.

Inductive result (A : Type) :=
| Ok (a : A)
| Raise (e : exn).
Arguments Ok {A} a.
Arguments Raise {A} e.

(** An exception leaves the rest of the computation out. *)
#[export] Instance result_ret : MRet result := λ A a, Ok a.
#[export] Instance result_bind : MBind result := λ A B k r,
  match r with
  | Ok a => k a
  | Raise e => Raise e
  end.

(** ** Street names: [update_name] *)

(** Lines 104-110, in the order of the literal.  A dict has one value per key
    and is walked in an order of its own; [update_name] takes the entries in
    the order in which the dict yields its keys. *)
Definition mapping : list (str * str) :=
  [ (u "Str.",    u "Stra" ++ [223%N] ++ u "e");
    (u "Strasse", u "Stra" ++ [223%N] ++ u "e");
    (u "Str",     u "Stra" ++ [223%N] ++ u "e");
    (u "str",     u "stra" ++ [223%N] ++ u "e");
    (u "str.",    u "stra" ++ [223%N] ++ u "e");
    (u "strasse", u "stra" ++ [223%N] ++ u "e") ].

(** One turn of the loop of lines 116-118. *)
Definition substitute_key (name : str) (entry : str * str) : str :=
  if Py.endswith name entry.1 then Py.replace name entry.1 entry.2 else name.

Definition substitute (name : str) (mapping : list (str * str)) : str :=
  foldl substitute_key name mapping.

(** [name[0]] raises IndexError on the empty string. *)
Definition update_name `{CaseTable} (name : str) (mapping : list (str * str)) : result str :=
  let name := substitute name mapping in
  match name with
  | [] => Raise IndexError
  | c :: _ => Ok (if islower c then Py.capitalize name else name)
  end.

(** ** Elements and records: [shape_element] *)

(** An ElementTree element: its tag, its attribute dict and its children in
    document order. *)
#[warnings="-register-all"] Inductive Element :=
| Elem (tag : str) (attrib : gmap str str) (children : list Element).

Definition tag (e : Element) : str := let 'Elem t _ _ := e in t.
Definition attrib (e : Element) : gmap str str := let 'Elem _ a _ := e in a.
Definition children (e : Element) : list Element := let 'Elem _ _ c := e in c.

(** [element.get(name)]: [None] when the attribute is missing. *)
Definition get (e : Element) (name : str) : option str := attrib e !! name.

(** The element and all its descendants in document order. *)
Fixpoint descendants (e : Element) : list Element :=
  e :: (fix over (l : list Element) : list Element :=
          match l with
          | [] => []
          | c :: l' => descendants c ++ over l'
          end) (children e).

(** [element.iter(name)] *)
Definition iter (e : Element) (name : str) : list Element :=
  filter (λ x, tag x = name) (descendants e).

(** [PROBLEMCHARS], line 179. *)
Definition PROBLEMCHARS : list char :=
  u "=+/&<>;'" ++ [34%N] ++ u "?%#$@,. " ++ [9%N; 13%N; 10%N].

(** [PROBLEMCHARS.search(k)] finds a match when some code point of [k] is in
    the class. *)
Definition problemchars_search (k : str) : bool :=
  existsb (λ c, bool_decide (c ∈ PROBLEMCHARS)) k.

(** The class [([a-z]|_)] of [LOWER_COLON], line 178. *)
Definition lower_or_underscore (c : char) : bool :=
  ((97 <=? c) && (c <=? 122) || (c =? 95))%N.

(** The longest run of the class at the front of [k], and what follows it. *)
Fixpoint span_lower (k : str) : str * str :=
  match k with
  | [] => ([], [])
  | c :: k' =>
      if lower_or_underscore c
      then let '(seg, rest) := span_lower k' in (c :: seg, rest)
      else ([], k)
  end.

(** [LOWER_COLON.search(k)]: the pattern is anchored at the start of [k] and
    the colon is outside the class, so the first group takes the whole run;
    the pattern matches when the run is not empty and a colon and one more
    code point of the class follow it. *)
Definition lower_colon_search (k : str) : bool :=
  match span_lower k with
  | (_ :: _, colon :: c :: _) => (colon =? 58)%N && lower_or_underscore c
  | _ => false
  end.

(** A row of [nodes_tags] or [ways_tags].  [row_type] and [row_key] are
    absent from the dict when the key has a problem character. *)
Record TagRow := {
  row_id : option str;
  row_value : option str;
  row_type : option str;
  row_key : option str
}.

(** A row of [ways_nodes]. *)
Record NodeRef := {
  ref_id : option str;
  node_id : option str;
  position : nat
}.

Inductive Shaped :=
| ShapedNode (node : list (str * option str)) (node_tags : list TagRow)
| ShapedWay (way : list (str * option str)) (way_nodes : list NodeRef)
            (way_tags : list TagRow).

Definition NODE_FIELDS : list str :=
  [u "id"; u "lat"; u "lon"; u "user"; u "uid"; u "version"; u "changeset"; u "timestamp"].
Definition WAY_FIELDS : list str :=
  [u "id"; u "user"; u "uid"; u "version"; u "changeset"; u "timestamp"].

Section Shape.
Context `{CaseTable}.

(** Lines 199-207: the value of the row.  A missing [v] reaches
    [update_name] or [re.sub] as [None].  The dict [mapping] is walked in an
    order that the source does not fix; the result of [update_name] is the
    same for every order (lemma [substitute_order] below). *)
Definition tag_value (tag : Element) : result (option str) :=
  if bool_decide (get tag (u "k") = Some (u "addr:street")) then
    match get tag (u "v") with
    | None => Raise AttributeError
    | Some v => name ← update_name v mapping; mret (Some name)
    end
  else if bool_decide (get tag (u "k") = Some (u "phone")) then
    match get tag (u "v") with
    | None => Raise TypeError
    | Some v => mret (Some (update_phone_num v))
    end
  else mret (get tag (u "v")).

(** Lines 208-217: the fields [type] and [key] of the row. *)
Definition tag_type_key (k : str) : result (option str * option str) :=
  if negb (problemchars_search k) then
    if lower_colon_search k then
      let sp := Py.split1 k (u ":") in
      match sp !! 0, sp !! 1 with
      | Some sp0, Some sp1 => mret (Some sp0, Some sp1)
      | _, _ => Raise IndexError
      end
    else mret (Some (u "regular"), Some k)
  else mret (None, None).

(** The body of the loop of lines 198-218. *)
Definition shape_tag (element tag : Element) : result TagRow :=
  value ← tag_value tag;
  match get tag (u "k") with
  | None => Raise TypeError
  | Some k =>
      '(type, key) ← tag_type_key k;
      mret {| row_id := get element (u "id"); row_value := value;
              row_type := type; row_key := key |}
  end.

(** The loop of lines 198-218 with its accumulator [tags]. *)
Fixpoint shape_tags (element : Element) (todo : list Element) (tags : list TagRow)
  : result (list TagRow) :=
  match todo with
  | [] => mret tags
  | tag :: todo' =>
      d ← shape_tag element tag;
      shape_tags element todo' (tags ++ [d])
  end.

(** The loop of lines 227-233 with its state [pos] and [way_nodes]. *)
Fixpoint shape_nds (element : Element) (todo : list Element) (pos : nat)
    (way_nodes : list NodeRef) : list NodeRef :=
  match todo with
  | [] => way_nodes
  | nd :: todo' =>
      let d := {| ref_id := get element (u "id"); node_id := get nd (u "ref");
                  position := pos |} in
      shape_nds element todo' (pos + 1) (way_nodes ++ [d])
  end.

Definition attribs (element : Element) (fields : list str) : list (str * option str) :=
  (λ attr, (attr, get element attr)) <$> fields.

(** A function that falls off its end returns [None]. *)
Definition shape_element (element : Element) : result (option Shaped) :=
  tags ← shape_tags element (iter element (u "tag")) [];
  if bool_decide (tag element = u "node") then
    mret (Some (ShapedNode (attribs element NODE_FIELDS) tags))
  else if bool_decide (tag element = u "way") then
    let way_nodes := shape_nds element (iter element (u "nd")) 0 [] in
    mret (Some (ShapedWay (attribs element WAY_FIELDS) way_nodes tags))
  else mret None.

End Shape.

(** ** Notions used in the statements *)

(** [before] is what precedes the first occurrence of [sub] in [s], and
    [after] what follows it. *)
Definition first_occurrence (s sub before after : str) : Prop :=
  s = before ++ sub ++ after ∧
  ∀ b a, s = b ++ sub ++ a → length before ≤ length b.

(** No proper non-empty prefix of [k] is also a suffix of [k]: two
    occurrences of [k] in a string cannot overlap. *)
Definition border_free (k : str) : bool :=
  forallb (λ n, negb (bool_decide (take (length k - n) k = drop n k)))
          (seq 1 (length k - 1)).

(** The last two code points of both canonical forms, "ße". *)
Definition sz : str := [223%N; 101%N].

(** A value is already canonical when it holds one of the street-type tokens
    of [expected], the first two of which are the canonical forms that
    [mapping] rewrites to, and its first character is not in lower case:
    neither rule of [update_name] has anything left to do. *)
Definition already_canonical `{CaseTable} (x : str) : bool :=
  existsb (λ token, Py.contains token x) expected &&
  match x with
  | [] => false
  | c :: _ => negb (islower c)
  end.

Ltac each_entry H :=
  unfold mapping in H;
  repeat (apply elem_of_cons in H as [-> | H]);
  [.. | by apply elem_of_nil in H].

(** The tags on which the body of the loop of [shape_element] raises
    nothing: the key is present, a street name is present and not empty, a
    phone number is present. *)
Definition well_formed_tag (tag : Element) : Prop :=
  ∃ k, get tag (u "k") = Some k ∧
       (k = u "addr:street" → ∃ c v, get tag (u "v") = Some (c :: v)) ∧
       (k = u "phone" → is_Some (get tag (u "v"))).

(** A way with two node references and two tags. *)
Definition sample_way : Element :=
  Elem (u "way") {[ u "id" := u "7" ]}
    [ Elem (u "nd") {[ u "ref" := u "11" ]} [];
      Elem (u "tag") (<[ u "k" := u "addr:postcode" ]> {[ u "v" := u "10405" ]}) [];
      Elem (u "nd") {[ u "ref" := u "12" ]} [];
      Elem (u "tag") (<[ u "k" := u "phone" ]> {[ u "v" := u "030 1234567" ]}) [] ].

(** A node whose street name is the empty string. *)
Definition empty_street_node : Element :=
  Elem (u "node") {[ u "id" := u "1" ]}
    [ Elem (u "tag") (<[ u "k" := u "addr:street" ]> {[ u "v" := [] ]}) [] ].

(** ** The audit pass: [is_street_name], [is_phone_num], [audit] *)

(** [elem.attrib['k']] raises KeyError when the attribute is missing.  It is
    the only exception of the audit pass; [None] stands for it. *)
Definition is_street_name (elem : Element) : option bool :=
  k ← attrib elem !! u "k"; Some (bool_decide (k = u "addr:street")).

Definition is_phone_num (elem : Element) : option bool :=
  k ← attrib elem !! u "k"; Some (bool_decide (k = u "phone")).

(** Lines 75-78, the body of the inner loop of [audit], on the pair of sets
    [street_types], [phone_nums]. *)
Definition audit_tag (sets : gset str * gset str) (tag : Element)
  : option (gset str * gset str) :=
  street ← is_street_name tag;
  if street : bool then
    v ← attrib tag !! u "v"; Some (audit_street_type sets.1 v, sets.2)
  else
    phone ← is_phone_num tag;
    if phone : bool then
      v ← attrib tag !! u "v"; Some (sets.1, audit_phone_num sets.2 v)
    else Some sets.

Fixpoint audit_tags (sets : gset str * gset str) (tags : list Element)
  : option (gset str * gset str) :=
  match tags with
  | [] => Some sets
  | tag :: tags' => sets' ← audit_tag sets tag; audit_tags sets' tags'
  end.

(** Lines 73-78, the body of the outer loop. *)
Definition audit_elem (sets : gset str * gset str) (elem : Element)
  : option (gset str * gset str) :=
  if bool_decide (tag elem = u "node") || bool_decide (tag elem = u "way")
  then audit_tags sets (iter elem (u "tag"))
  else Some sets.

Fixpoint audit_from (sets : gset str * gset str) (events : list Element)
  : option (gset str * gset str) :=
  match events with
  | [] => Some sets
  | elem :: events' => sets' ← audit_elem sets elem; audit_from sets' events'
  end.

(** [audit], lines 65-80.  [events] are the elements that [iterparse] hands
    out, one per "start" event in document order, each one as the parser has
    built it when the loop body runs. *)
Definition audit (events : list Element) : option (gset str * gset str) :=
  audit_from (∅, ∅) events.

(** ** Writing the rows: [get_element], [process_map] *)

Inductive event := Start | End_.

#[export] Instance event_eq_dec : EqDecision event.
Proof. solve_decision. Defined.

(** [get_element], lines 240-248: the first event of the parse is taken for
    the root; of the others, the elements whose "end" event has come and
    whose tag is listed are yielded.  [root.clear()] empties the root once the
    consumer is done with the yielded element, which keeps its own attributes
    and children.  On an empty parse [next] ends the generator. *)
Definition get_element (context : list (event * Element)) (tags : list str)
  : list Element :=
  match context with
  | [] => []
  | _ :: context' =>
      (filter (λ x, x.1 = End_ ∧ tag x.2 ∈ tags) context').*2
  end.

(** The five csv files, each as the list of rows handed to its writer. *)
Record Files := {
  nodes_file : list (list (str * option str));
  nodes_tags_file : list TagRow;
  ways_file : list (list (str * option str));
  way_nodes_file : list NodeRef;
  way_tags_file : list TagRow
}.

Definition no_rows : Files :=
  {| nodes_file := []; nodes_tags_file := []; ways_file := [];
     way_nodes_file := []; way_tags_file := [] |}.

(** Lines 277-289 with [validate] false, as the script calls it.  The value
    of [shape_element] is a node dict exactly when the tag of the element is
    "node", so the test on [element.tag] is the case distinction on [el].  An
    exception ends the loop; the rows written before it stay in the files. *)
Fixpoint write_elements `{CaseTable} (elements : list Element) (files : Files)
  : Files * option exn :=
  match elements with
  | [] => (files, None)
  | element :: elements' =>
      match shape_element element with
      | Raise e => (files, Some e)
      | Ok None => write_elements elements' files
      | Ok (Some (ShapedNode node node_tags)) =>
          write_elements elements'
            {| nodes_file := nodes_file files ++ [node];
               nodes_tags_file := nodes_tags_file files ++ node_tags;
               ways_file := ways_file files;
               way_nodes_file := way_nodes_file files;
               way_tags_file := way_tags_file files |}
      | Ok (Some (ShapedWay way way_nodes way_tags)) =>
          write_elements elements'
            {| nodes_file := nodes_file files;
               nodes_tags_file := nodes_tags_file files;
               ways_file := ways_file files ++ [way];
               way_nodes_file := way_nodes_file files ++ way_nodes;
               way_tags_file := way_tags_file files ++ way_tags |}
      end
  end.

Definition process_map `{CaseTable} (context : list (event * Element))
  : Files * option exn :=
  write_elements (get_element context [u "node"; u "way"]) no_rows.

(** ** Notions used in the further statements *)

(** The characters that [update_phone_num] can put out. *)
Definition phone_char (c : char) : Prop := is_digit c = true ∨ c = 43%N ∨ c = 32%N.

(** A tag on which the audit raises KeyError: the key is missing, or the
    value of a street name or phone number is. *)
Definition audit_key_error (t : Element) : Prop :=
  attrib t !! u "k" = None ∨
  ((attrib t !! u "k" = Some (u "addr:street") ∨ attrib t !! u "k" = Some (u "phone")) ∧
   attrib t !! u "v" = None).

(** The tags that the audit visits: those of the nodes and ways. *)
Definition audited (events : list Element) (t : Element) : Prop :=
  ∃ elem, elem ∈ events ∧ (tag elem = u "node" ∨ tag elem = u "way") ∧
          t ∈ iter elem (u "tag").

(** The same tags as a list, in the order of the visit. *)
Definition visited (events : list Element) : list Element :=
  events ≫= λ elem,
    if bool_decide (tag elem = u "node") || bool_decide (tag elem = u "way")
    then iter elem (u "tag") else [].

(** A node with one tag, and two parses: the events of a document with that
    node and [sample_way], and the "end" events of a document in which a node
    with an empty street name stands between them. *)
Definition sample_node : Element :=
  Elem (u "node") (<[ u "id" := u "3" ]> (<[ u "lat" := u "52.5" ]> {[ u "lon" := u "13.4" ]}))
    [ Elem (u "tag") (<[ u "k" := u "amenity" ]> {[ u "v" := u "cafe" ]}) [] ].

Definition sample_context : list (event * Element) :=
  [ (Start, Elem (u "osm") ∅ []);
    (Start, sample_node); (End_, sample_node);
    (Start, sample_way); (End_, sample_way);
    (End_, Elem (u "osm") ∅ []) ].

Definition failing_context : list (event * Element) :=
  [ (Start, Elem (u "osm") ∅ []);
    (End_, sample_node); (End_, empty_street_node); (End_, sample_way);
    (End_, Elem (u "osm") ∅ []) ].

(** ** Specifications of the string primitives *)

Section PyFacts.
Implicit Types s p sub chars old new : str.

Lemma startswith_prefix s p : Py.startswith s p = true ↔ p `prefix_of` s.
Proof.
  revert s. induction p as [|c p IH]; intros [|d s]; simpl.
  - split; [intros _; apply prefix_nil | done].
  - split; [intros _; apply prefix_nil | done].
  - split; [done | intros Hp; by apply prefix_nil_not in Hp].
  - rewrite andb_true_iff, N.eqb_eq, IH. split.
    + intros [-> Hp]. by apply prefix_cons.
    + intros Hp. split.
      * symmetry. by eapply prefix_cons_inv_1.
      * by eapply prefix_cons_inv_2.
Qed.

Lemma startswith_app s p : Py.startswith (p ++ s) p = true.
Proof. apply startswith_prefix. by exists s. Qed.

Lemma endswith_suffix s p : Py.endswith s p = true ↔ p `suffix_of` s.
Proof. unfold Py.endswith. by rewrite startswith_prefix, suffix_prefix_reverse. Qed.

Lemma find_unfold s sub :
  Py.find s sub =
  if Py.startswith s sub then Some 0
  else match s with [] => None | _ :: s' => S <$> Py.find s' sub end.
Proof. by destruct s. Qed.

Lemma find_first_occurrence s sub before after :
  first_occurrence s sub before after → Py.find s sub = Some (length before).
Proof.
  revert s. induction before as [|c b IH]; intros s [-> Hmin]; rewrite find_unfold.
  - simpl. by rewrite startswith_app.
  - destruct (Py.startswith _ sub) eqn:Hsw.
    + apply startswith_prefix in Hsw as [a Ha].
      specialize (Hmin [] a Ha). simpl in Hmin. lia.
    + simpl. rewrite (IH (b ++ sub ++ after)); [done|].
      split; [done|]. intros b' a' E.
      specialize (Hmin (c :: b') a'). simpl in Hmin.
      rewrite E in Hmin. specialize (Hmin eq_refl). lia.
Qed.

Lemma prefix_drop s p : p `prefix_of` s → s = p ++ drop (length p) s.
Proof. intros [a ->]. by rewrite drop_app_length. Qed.

Lemma find_Some s sub i :
  Py.find s sub = Some i →
  first_occurrence s sub (take i s) (drop (i + length sub) s) ∧ i ≤ length s.
Proof.
  revert i. induction s as [|c s IH]; intros i; rewrite find_unfold;
    destruct (Py.startswith _ sub) eqn:Hsw.
  - intros [= <-]. apply startswith_prefix, prefix_drop in Hsw.
    repeat split; simpl; [done | lia | lia].
  - done.
  - intros [= <-]. apply startswith_prefix, prefix_drop in Hsw.
    repeat split; simpl; [done | lia | lia].
  - simpl. destruct (Py.find s sub) as [j|] eqn:Hj; [|done].
    intros [= <-]. destruct (IH j eq_refl) as [[Hs Hmin] Hle].
    split; [|simpl; lia]. split.
    + simpl. by rewrite <-Hs.
    + intros [|c' b'] a E.
      * assert (Py.startswith (c :: s) sub = true) as Hsw'
          by (apply startswith_prefix; by exists a).
        congruence.
      * simpl in E. injection E as -> E. specialize (Hmin b' a E).
        simpl. rewrite length_take in *. lia.
Qed.

Lemma find_None s sub :
  Py.find s sub = None → ∀ b a, s ≠ b ++ sub ++ a.
Proof.
  induction s as [|c s IH]; rewrite find_unfold;
    destruct (Py.startswith _ sub) eqn:Hsw; try done.
  - intros _ [|c b] a E; [|done].
    apply not_true_iff_false in Hsw. apply Hsw, startswith_prefix. by exists a.
  - simpl. destruct (Py.find s sub) eqn:Hj; [done|]. intros _ [|c' b] a E.
    + apply not_true_iff_false in Hsw. apply Hsw, startswith_prefix. by exists a.
    + simpl in E. injection E as _ E. by eapply IH.
Qed.

Lemma contains_occurs sub s :
  Py.contains sub s = true ↔ ∃ b a, s = b ++ sub ++ a.
Proof.
  unfold Py.contains. rewrite bool_decide_eq_true. split.
  - intros [i Hi]. apply find_Some in Hi as [[Hs _] _]. eauto.
  - intros (b & a & E). destruct (Py.find s sub) eqn:Hf; [done|].
    by apply find_None with (b := b) (a := a) in Hf.
Qed.

Lemma first_occurrence_unique s sub b1 a1 b2 a2 :
  first_occurrence s sub b1 a1 → first_occurrence s sub b2 a2 → b1 = b2 ∧ a1 = a2.
Proof.
  intros H1 H2. pose proof (find_first_occurrence _ _ _ _ H1) as F1.
  pose proof (find_first_occurrence _ _ _ _ H2) as F2.
  destruct H1 as [E1 _], H2 as [E2 _]. rewrite F1 in F2. injection F2 as Hlen.
  rewrite E1 in E2. apply app_inj_1 in E2 as [-> E2]; [|done].
  by apply app_inv_head in E2.
Qed.

(** After the test [sub in s], [s.split(sub, 1)] has two items. *)
Lemma split1_contains s sub :
  Py.contains sub s = true →
  ∃ before after, Py.split1 s sub = [before; after] ∧
                  first_occurrence s sub before after.
Proof.
  unfold Py.contains, Py.split1. rewrite bool_decide_eq_true. intros [i Hi].
  rewrite Hi. apply find_Some in Hi as [Hfo _]. eauto.
Qed.

Lemma split1_first_occurrence s sub before after :
  first_occurrence s sub before after → Py.split1 s sub = [before; after].
Proof.
  intros Hfo. unfold Py.split1. rewrite (find_first_occurrence _ _ _ _ Hfo).
  destruct Hfo as [-> _].
  by rewrite take_app_length, <-drop_drop, !drop_app_length.
Qed.

(** [lstrip] removes the longest run of listed characters at the front. *)
Lemma lstrip_spec s chars :
  ∃ stripped, s = stripped ++ Py.lstrip s chars ∧
              Forall (λ c, c ∈ chars) stripped ∧
              ∀ c rest, Py.lstrip s chars = c :: rest → c ∉ chars.
Proof.
  induction s as [|c s (stripped & E & Hall & Hhd)]; simpl.
  - exists []. by repeat split.
  - case_bool_decide as Hc.
    + exists (c :: stripped). repeat split; [by rewrite E at 1 | by constructor | done].
    + exists []. repeat split; [done|]. by intros ?? [= <- _].
Qed.

Lemma lstrip_ext s chars chars' :
  (∀ c, c ∈ chars ↔ c ∈ chars') → Py.lstrip s chars = Py.lstrip s chars'.
Proof.
  intros Hext. induction s as [|c s IH]; simpl; [done|].
  by rewrite IH, (bool_decide_ext _ _ (Hext c)).
Qed.
End PyFacts.

(** ** The phone normaliser *)

Section PhoneFacts.
Implicit Types num before after : str.

(** A number with the prefix 0049 gets the country code twice: line 143
    produces "+49...", which line 144 sees as a number without country
    code. *)
Lemma country_prefix_0049 num :
  Py.startswith (strip_non_digits num) (u "0049") = true →
  country_prefix num = u "+49 +" ++ Py.lstrip (strip_non_digits num) (u "0").
Proof.
  intros H49. unfold country_prefix. rewrite H49.
  rewrite (lstrip_ext _ (u "00") (u "0")); [done|].
  intros c. unfold u. simpl. rewrite !elem_of_cons. tauto.
Qed.

Lemma city_split_first num before after :
  first_occurrence num (u "30") before after →
  city_split num =
    if bool_decide (length before ≤ 5) then u "+49 30 " ++ after else num.
Proof.
  intros Hfo. unfold city_split.
  assert (Py.contains (u "30") num = true) as ->.
  { apply contains_occurs. destruct Hfo as [E _]. eauto. }
  by rewrite (split1_first_occurrence _ _ _ _ Hfo).
Qed.

Lemma city_split_absent num :
  (∀ before after, num ≠ before ++ u "30" ++ after) → city_split num = num.
Proof.
  intros Hno. unfold city_split. destruct (Py.contains _ num) eqn:Hc; [|done].
  apply contains_occurs in Hc as (b & a & E). by destruct (Hno b a).
Qed.
End PhoneFacts.

(** C1, as the code runs it.  The digits "0049301234567" leave line 143 as
    "+49301234567"; the test of line 144 is not an [elif], finds no leading
    "49" and prefixes "+49 " once more, so the value that reaches the
    city-code split is "+49 +49301234567", with two country prefixes, and it
    is also what the function returns. *)
Theorem country_prefix_0049_doubled :
  country_prefix (u "0049301234567") = u "+49 +49301234567" ∧
  update_phone_num (u "0049301234567") = u "+49 +49301234567".
Proof. split; vm_compute; reflexivity. Qed.

(** C6: with [s] the string after lines 141-150, if "30" occurs in [s] and
    [before], [after] are the parts around its first occurrence, then the
    result is "+49 30 " followed by [after] when [before] has at most 5
    characters, and [s] itself when [before] is longer; when "30" does not
    occur the result is [s]; so whenever [before] has at most 5 characters the
    result starts with "+49 30 ". *)
Theorem city_code_split (num : str) :
  (∀ before after,
      first_occurrence (country_prefix num) (u "30") before after →
      length before ≤ 5 →
      update_phone_num num = u "+49 30 " ++ after ∧
      u "+49 30 " `prefix_of` update_phone_num num) ∧
  (∀ before after,
      first_occurrence (country_prefix num) (u "30") before after →
      5 < length before →
      update_phone_num num = country_prefix num) ∧
  ((∀ before after, country_prefix num ≠ before ++ u "30" ++ after) →
      update_phone_num num = country_prefix num).
Proof.
  unfold update_phone_num. split; [|split].
  - intros before after Hfo Hlen. rewrite (city_split_first _ _ _ Hfo).
    rewrite bool_decide_true by done. split; [done | by exists after].
  - intros before after Hfo Hlen. rewrite (city_split_first _ _ _ Hfo).
    rewrite bool_decide_false; [done | lia].
  - apply city_split_absent.
Qed.

Lemma first_occurrence_find (s sub : str) (i : nat) :
  Py.find s sub = Some i →
  first_occurrence s sub (take i s) (drop (i + length sub) s).
Proof. intros Hf. by apply find_Some in Hf as [? _]. Qed.

Lemma city_code_split_witness :
  update_phone_num (u "030 1234567") = u "+49 30 1234567" ∧
  update_phone_num (u "0171 2223019") = u "+49 1712223019" ∧
  update_phone_num (u "0171 2223456") = u "+49 1712223456".
Proof.
  split; [|split].
  - refine (proj1 (proj1 (city_code_split (u "030 1234567")) (u "+49 ") (u "1234567") _ _)).
    + apply (first_occurrence_find (u "+49 301234567") (u "30") 4). vm_compute. reflexivity.
    + vm_compute. lia.
  - refine (proj1 (proj2 (city_code_split (u "0171 2223019"))) (u "+49 171222") (u "19") _ _).
    + apply (first_occurrence_find (u "+49 1712223019") (u "30") 10). vm_compute. reflexivity.
    + vm_compute. lia.
  - refine (proj2 (proj2 (city_code_split (u "0171 2223456"))) _).
    apply find_None. vm_compute. reflexivity.
Defined.

(** C7: when the digits start with "49" (and so not with "0049"), the string
    after lines 141-150 is "+49 " followed by the digits without their longest
    leading run of characters '4' and '9'. *)
Theorem country_prefix_49 (num : str) :
  Py.startswith (strip_non_digits num) (u "49") = true →
  Py.startswith (strip_non_digits num) (u "0049") = false →
  ∃ stripped rest,
    strip_non_digits num = stripped ++ rest ∧
    Forall (λ c, c = 52%N ∨ c = 57%N) stripped ∧
    (∀ c rest', rest = c :: rest' → c ≠ 52%N ∧ c ≠ 57%N) ∧
    country_prefix num = u "+49 " ++ rest.
Proof.
  intros H49 H0049. unfold country_prefix. rewrite H0049, H49. simpl negb. cbv iota.
  destruct (lstrip_spec (strip_non_digits num) (u "49")) as (stripped & E & Hall & Hhd).
  assert (∀ c, c ∈ u "49" ↔ c = 52%N ∨ c = 57%N) as Hin.
  { intros c. unfold u. simpl. rewrite !elem_of_cons, elem_of_nil. tauto. }
  exists stripped, (Py.lstrip (strip_non_digits num) (u "49")).
  split; [done|]. split; [|split; [|done]].
  - eapply Forall_impl; [exact Hall|]. intros c. apply Hin.
  - intros c rest' Hrest. apply Hhd in Hrest. rewrite Hin in Hrest. tauto.
Qed.

Lemma country_prefix_49_witness :
  ∃ stripped rest,
    strip_non_digits (u "+49 (49) 30-1234") = stripped ++ rest ∧
    Forall (λ c, c = 52%N ∨ c = 57%N) stripped ∧
    (∀ c rest', rest = c :: rest' → c ≠ 52%N ∧ c ≠ 57%N) ∧
    country_prefix (u "+49 (49) 30-1234") = u "+49 " ++ rest.
Proof.
  apply (country_prefix_49 (u "+49 (49) 30-1234")); vm_compute; reflexivity.
Defined.

Example country_prefix_4949 : country_prefix (u "4949301234") = u "+49 301234".
Proof. vm_compute. reflexivity. Qed.

(** ** Replacement *)

Section ReplaceFacts.
Implicit Types s old new : str.

Lemma replace_from_skip p s old new :
  Py.replace_from (length p) (p ++ s) old new = Py.replace_from 0 s old new.
Proof. induction p as [|c p IH]; [done | apply IH]. Qed.

Lemma replace_match s old new :
  old ≠ [] → Py.replace (old ++ s) old new = new ++ Py.replace s old new.
Proof.
  destruct old as [|c old]; [done|]. intros _. unfold Py.replace.
  change ((c :: old) ++ s) with (c :: (old ++ s)).
  cbn [Py.replace_from].
  rewrite (proj2 (startswith_prefix (c :: old ++ s) (c :: old))) by (by exists s).
  replace (length (c :: old) - 1) with (length old) by (simpl; lia).
  by rewrite replace_from_skip.
Qed.

Lemma replace_no_match c s old new :
  old ≠ [] → Py.startswith (c :: s) old = false →
  Py.replace (c :: s) old new = c :: Py.replace s old new.
Proof.
  destruct old as [|d old]; [done|]. intros _ Hsw. unfold Py.replace.
  cbn [Py.replace_from]. by rewrite Hsw.
Qed.

Lemma replace_nil old new : old ≠ [] → Py.replace [] old new = [].
Proof. by destruct old. Qed.

Lemma border_free_spec k n :
  border_free k = true → 0 < n < length k → take (length k - n) k ≠ drop n k.
Proof.
  unfold border_free. rewrite forallb_forall. intros Hall Hn E.
  specialize (Hall n). rewrite negb_true_iff, bool_decide_eq_false in Hall.
  apply Hall; [|done]. apply in_seq. lia.
Qed.

(** When [old] cannot overlap itself, an occurrence at the end of [s] is
    among those that [replace] rewrites. *)
Lemma replace_suffix s old new :
  old ≠ [] → border_free old = true →
  old `suffix_of` s → new `suffix_of` Py.replace s old new.
Proof.
  intros Hne Hbf. remember (length s) as n eqn:Hn. revert s Hn.
  induction n as [n IH] using lt_wf_ind. intros s Hn [t Hs]. subst n.
  destruct (Py.startswith s old) eqn:Hsw.
  - apply startswith_prefix in Hsw as [rest Hrest].
    rewrite Hrest, replace_match by done.
    destruct rest as [|r rest].
    { by rewrite replace_nil, app_nil_r. }
    apply suffix_app_r. eapply (IH (length (r :: rest))); [|done|].
    { rewrite Hrest, length_app. destruct old; [done | simpl; lia]. }
    rewrite Hrest in Hs. apply app_eq_inv in Hs as [(k & E1 & E2)|(k & _ & E)].
    + destruct k as [|d k].
      { simpl in E2. by rewrite <-E2. }
      exfalso. apply (border_free_spec old (length t) Hbf).
      * apply (f_equal length) in E1, E2. rewrite length_app in *.
        simpl in *. lia.
      * assert (length old - length t = length (d :: k)) as ->
          by (rewrite E1 at 1; rewrite length_app; lia).
        rewrite E2 at 1. rewrite take_app_length.
        rewrite E1 at 1. by rewrite drop_app_length.
    + by exists k.
  - destruct s as [|c s].
    { destruct t, old; done. }
    rewrite replace_no_match by done.
    apply suffix_cons_r. destruct t as [|c' t].
    { simpl in Hs. subst old.
      rewrite (proj2 (startswith_prefix (c :: s) (c :: s))) in Hsw by done. done. }
    simpl in Hs. injection Hs as <- ->.
    eapply (IH (length (t ++ old))); [simpl; lia | done | by exists t].
Qed.
End ReplaceFacts.

(** ** The street-name normaliser *)

Section StreetFacts.
Context `{CaseTable}.
Implicit Types (s name : str) (e : str * str) (o : list (str * str)).

Lemma mapping_entry e :
  e ∈ mapping →
  e.1 ≠ [] ∧ border_free e.1 = true ∧ sz `suffix_of` e.2 ∧ head e.1 = head e.2.
Proof.
  intros He. each_entry He; repeat split; try (by vm_compute);
    apply endswith_suffix; by vm_compute.
Qed.

(** A string that ends in "ße" ends with none of the keys. *)
Lemma no_key_after s e :
  e ∈ mapping → sz `suffix_of` s → Py.endswith s e.1 = false.
Proof.
  intros He [t ->]. unfold Py.endswith. rewrite reverse_app.
  each_entry He; reflexivity.
Qed.

(** No key is a suffix of another one, so a string ends with at most one
    of them. *)
Lemma key_unique s e1 e2 :
  e1 ∈ mapping → e2 ∈ mapping →
  Py.endswith s e1.1 = true → Py.endswith s e2.1 = true → e1 = e2.
Proof.
  intros He1 He2 H1%endswith_suffix H2%endswith_suffix.
  destruct (suffix_weak_total _ _ _ H1 H2) as [Hs|Hs];
    apply endswith_suffix in Hs; clear H1 H2;
    each_entry He1; each_entry He2;
    first [reflexivity | vm_compute in Hs; discriminate Hs].
Qed.

Lemma replaced_ends_sz s e :
  e ∈ mapping → Py.endswith s e.1 = true → sz `suffix_of` Py.replace s e.1 e.2.
Proof.
  intros (Hne & Hbf & Hsz & _)%mapping_entry Hend%endswith_suffix.
  etrans; [exact Hsz|]. by apply replace_suffix.
Qed.

Lemma substitute_no_match s o :
  (∀ e, e ∈ o → Py.endswith s e.1 = false) → substitute s o = s.
Proof.
  unfold substitute. induction o as [|e o IH]; intros Hno; simpl; [done|].
  unfold substitute_key at 2. rewrite (Hno e) by apply list_elem_of_here.
  apply IH. intros e' He'. apply Hno. by apply list_elem_of_further.
Qed.

Lemma substitute_match s o e :
  (∀ e', e' ∈ o → e' ∈ mapping) → e ∈ o → Py.endswith s e.1 = true →
  substitute s o = Py.replace s e.1 e.2.
Proof.
  unfold substitute. induction o as [|e' o IH]; intros Hsub He Hend.
  { by apply elem_of_nil in He. }
  assert (e ∈ mapping) as Hem by (by apply Hsub).
  assert (e' ∈ mapping) as Hem' by (apply Hsub, list_elem_of_here).
  simpl. unfold substitute_key at 2. destruct (Py.endswith s e'.1) eqn:Hend'.
  - assert (e' = e) as -> by (by eapply key_unique).
    apply substitute_no_match. intros e2 He2. apply no_key_after.
    + apply Hsub. by apply list_elem_of_further.
    + by apply replaced_ends_sz.
  - apply IH; [|  |done].
    + intros e2 He2. apply Hsub. by apply list_elem_of_further.
    + apply elem_of_cons in He as [->|He]; [congruence | done].
Qed.

(** The loop of [update_name] rewrites at most once. *)
Lemma substitute_cases s o :
  (∀ e, e ∈ o → e ∈ mapping) →
  (substitute s o = s ∧ ∀ e, e ∈ o → Py.endswith s e.1 = false) ∨
  (∃ e, e ∈ o ∧ Py.endswith s e.1 = true ∧ substitute s o = Py.replace s e.1 e.2).
Proof.
  intros Hsub.
  destruct (decide (Exists (λ e, Py.endswith s e.1 = true) o)) as [Hex|Hno].
  - right. apply Exists_exists in Hex as (e & He & Hend).
    exists e. repeat split; [done..|]. by apply substitute_match.
  - left. assert (∀ e, e ∈ o → Py.endswith s e.1 = false) as Hall.
    { intros e He. apply not_true_iff_false. intros Hend.
      apply Hno, Exists_exists. eauto. }
    split; [|done]. by apply substitute_no_match.
Qed.

(** The result of the loop does not depend on the order of the entries. *)
Lemma substitute_order s o1 o2 :
  o1 ≡ₚ mapping → o2 ≡ₚ mapping → substitute s o1 = substitute s o2.
Proof.
  intros Hp1 Hp2.
  assert (∀ e, e ∈ o1 → e ∈ mapping) as Hs1 by (intros e; by rewrite Hp1).
  assert (∀ e, e ∈ o2 → e ∈ mapping) as Hs2 by (intros e; by rewrite Hp2).
  destruct (substitute_cases s o1 Hs1) as [[-> Hno]|(e & He & Hend & ->)].
  - symmetry. apply substitute_no_match. intros e He. apply Hno.
    rewrite Hp1. by apply Hs2.
  - symmetry. apply substitute_match; [done| |done]. rewrite Hp2. by apply Hs1.
Qed.

Lemma replace_head c s old new :
  old ≠ [] → head old = head new → head (Py.replace (c :: s) old new) = Some c.
Proof.
  intros Hne Hhd. destruct (Py.startswith (c :: s) old) eqn:Hsw.
  - apply startswith_prefix in Hsw as [rest E].
    rewrite E, replace_match by done.
    destruct old as [|d old]; [done|]. injection E as <- _.
    destruct new; [done|]. simpl in *. congruence.
  - by rewrite replace_no_match.
Qed.

(** The loop keeps the first character: every key starts like its value. *)
Lemma substitute_head c s o :
  (∀ e, e ∈ o → e ∈ mapping) → head (substitute (c :: s) o) = Some c.
Proof.
  intros Hsub. destruct (substitute_cases (c :: s) o Hsub)
    as [[-> _]|(e & He & _ & ->)]; [done|].
  destruct (mapping_entry e (Hsub e He)) as (Hne & _ & _ & Hhd).
  by apply replace_head.
Qed.

Lemma update_name_nonempty c s o :
  (∀ e, e ∈ o → e ∈ mapping) → ∃ y, update_name (c :: s) o = Ok y.
Proof.
  intros Hsub. unfold update_name.
  pose proof (substitute_head c s o Hsub) as Hhd.
  destruct (substitute (c :: s) o); [done | eauto].
Qed.

(** What the capitalisation rule does when it fires. *)
Lemma update_name_lower name o c rest :
  substitute name o = c :: rest → islower c = true →
  update_name name o = Ok (toupper c :: (tolower <$> rest)).
Proof. intros Hs Hc. unfold update_name. by rewrite Hs, Hc. Qed.

(** A value whose first character is not in lower case is a fixed point of
    a second pass. *)
Lemma update_name_idem_capitalized c s o :
  (∀ e, e ∈ o → e ∈ mapping) → islower c = false →
  ∃ y, update_name (c :: s) o = Ok y ∧ update_name y o = Ok y.
Proof.
  intros Hsub Hc. pose proof (substitute_head c s o Hsub) as Hhd.
  destruct (substitute (c :: s) o) as [|c' y] eqn:Hy; [done|].
  injection Hhd as ->. exists (c :: y).
  assert (update_name (c :: s) o = Ok (c :: y)) as Hfirst
    by (unfold update_name; by rewrite Hy, Hc).
  split; [done|].
  assert (substitute (c :: y) o = c :: y) as Hfix.
  { destruct (substitute_cases (c :: s) o Hsub) as [[E _]|(e & He & Hend & E)].
    - rewrite Hy in E. by rewrite E, Hy.
    - apply substitute_no_match. intros e' He'. apply no_key_after; [by apply Hsub|].
      rewrite Hy in E. rewrite E. apply replaced_ends_sz; [by apply Hsub | done]. }
  unfold update_name. by rewrite Hfix, Hc.
Qed.
End StreetFacts.

(** C2, as the code runs it.  The first character of "am Ostbahnhof" is in
    lower case, so line 120 calls [capitalize], which also puts every other
    character in lower case: the "O" of "Ostbahnhof" does not keep its
    case. *)
Theorem update_name_lowers_rest :
  @update_name latin1 (u "am Ostbahnhof") mapping = Ok (u "Am ostbahnhof").
Proof. vm_compute. reflexivity. Qed.

(** C3, as the code runs it.  On the empty string no key matches and
    [name[0]] of line 119 raises IndexError, whatever the case tables are. *)
Theorem update_name_empty `{CaseTable} : update_name [] mapping = Raise IndexError.
Proof. vm_compute. reflexivity. Qed.

(** C5, refuted: there are no case tables, input string, two orders of the
    six entries and two distinct keys that the input ends with, such that
    [update_name] returns different results under the two orders. *)
Lemma update_name_no_order_dependence :
  ¬ ∃ (ct : CaseTable) (name : str) (o1 o2 : list (str * str)) (e1 e2 : str * str),
      o1 ≡ₚ mapping ∧ o2 ≡ₚ mapping ∧
      e1 ∈ mapping ∧ e2 ∈ mapping ∧ e1.1 ≠ e2.1 ∧
      Py.endswith name e1.1 = true ∧ Py.endswith name e2.1 = true ∧
      @update_name ct name o1 ≠ @update_name ct name o2.
Proof.
  intros (ct & name & o1 & o2 & e1 & e2 & Hp1 & Hp2 & _ & _ & _ & _ & _ & Hdiff).
  apply Hdiff. unfold update_name. by rewrite (substitute_order name o1 o2).
Qed.

(** C5, amended: an input string ends with at most one key of the six-entry
    mapping, and [update_name] returns the same result for every order in
    which the entries are walked. *)
Theorem update_name_order_independent `{CaseTable} (name : str) (o1 o2 : list (str * str)) :
  o1 ≡ₚ mapping → o2 ≡ₚ mapping →
  (∀ e1 e2, e1 ∈ mapping → e2 ∈ mapping →
            Py.endswith name e1.1 = true → Py.endswith name e2.1 = true → e1 = e2) ∧
  update_name name o1 = update_name name o2.
Proof.
  intros Hp1 Hp2. split.
  - intros e1 e2. apply key_unique.
  - unfold update_name. by rewrite (substitute_order name o1 o2).
Qed.

Lemma update_name_order_independent_witness :
  @update_name latin1 (u "Prenzlauer Str.") mapping =
  @update_name latin1 (u "Prenzlauer Str.") (reverse mapping).
Proof.
  refine (proj2 (@update_name_order_independent latin1 (u "Prenzlauer Str.")
                   mapping (reverse mapping) _ _)).
  - reflexivity.
  - apply reverse_Permutation.
Defined.

(** C8: for every value that is already canonical (it holds a street-type
    token in its canonical spelling and its first character is not in lower
    case), and for every order of the mapping, [update_name] returns, and a
    second pass over its result returns that result again. *)
Theorem update_name_idempotent `{CaseTable} (x : str) (o : list (str * str)) :
  o ≡ₚ mapping → already_canonical x = true →
  ∃ y, update_name x o = Ok y ∧ update_name y o = Ok y.
Proof.
  intros Hp [_ Hcap]%andb_true_iff.
  destruct x as [|c s]; [done|]. apply negb_true_iff in Hcap.
  apply update_name_idem_capitalized; [|done]. intros e. by rewrite Hp.
Qed.

Lemma update_name_idempotent_witness :
  ∃ y, @update_name latin1 (u "Prenzlauer Stra" ++ [223%N] ++ u "e") mapping = Ok y ∧
       @update_name latin1 y mapping = Ok y.
Proof.
  apply (@update_name_idempotent latin1 (u "Prenzlauer Stra" ++ [223%N] ++ u "e") mapping).
  - reflexivity.
  - vm_compute. reflexivity.
Defined.

(** The premise on the first character cannot be dropped: a value in lower
    case that ends in a key written in capitals is rewritten by the second
    pass only. *)
Example update_name_twice_differs :
  let x := u "alte Stra" ++ [223%N] ++ u "e STR" in
  @update_name latin1 x mapping = Ok (u "Alte stra" ++ [223%N] ++ u "e str") ∧
  @update_name latin1 (u "Alte stra" ++ [223%N] ++ u "e str") mapping =
    Ok (u "Alte stra" ++ [223%N] ++ u "ea" ++ [223%N] ++ u "e stra" ++ [223%N] ++ u "e").
Proof. split; vm_compute; reflexivity. Qed.

(** ** The audit of street names *)

Section AuditFacts.
Implicit Types (name token : str) (street_types : gset str).

Lemma counter_zero name (tokens : list str) (init : nat) :
  foldl (λ counter street_type,
           if Py.contains street_type name then counter + 1 else counter)
        init tokens = 0 ↔
  init = 0 ∧ ∀ token, token ∈ tokens → Py.contains token name = false.
Proof.
  revert init. induction tokens as [|t tokens IH]; intros init; simpl.
  - split; [|by intros [? _]]. intros ->. split; [done|]. by intros ? ?%elem_of_nil.
  - rewrite IH. destruct (Py.contains t name) eqn:Ht; split.
    + intros [? _]. lia.
    + intros [_ Hall]. specialize (Hall t (list_elem_of_here _ _)). congruence.
    + intros [-> Hall]. split; [done|]. by intros token [->|?]%elem_of_cons; auto.
    + intros [-> Hall]. split; [done|]. intros token ?. by apply Hall, list_elem_of_further.
Qed.

(** The audit adds a name exactly when it holds none of the tokens of
    [expected], as that list is written in the source. *)
Lemma audit_street_type_spec street_types name :
  name ∈ audit_street_type street_types name ↔
  name ∈ street_types ∨
  ∀ token, token ∈ expected → ¬ ∃ b a, name = b ++ token ++ a.
Proof.
  unfold audit_street_type. case_bool_decide as Hc.
  - apply counter_zero in Hc as [_ Hall].
    split; [|intros _; apply elem_of_union_l; by apply elem_of_singleton].
    intros _. right. intros token Ht Hocc%contains_occurs.
    rewrite (Hall token Ht) in Hocc. done.
  - split; [by left|]. intros [?|Hall]; [done|]. destruct Hc.
    apply counter_zero. split; [done|]. intros token Ht.
    apply not_true_iff_false. intros Hocc%contains_occurs. by apply (Hall token).
Qed.
End AuditFacts.

(** C4, as the code runs it.  "Oberbaumbrücke" holds the token "brücke", but
    the list [expected] holds the code points of "br", 0, "fccke" in its
    place, so no token of the list occurs in the name and the audit adds it to
    the set of anomalous street names. *)
Theorem audit_street_type_bruecke :
  let name := u "Oberbaumbr" ++ [252%N] ++ u "cke" in
  Py.contains (u "br" ++ [252%N] ++ u "cke") name = true ∧
  ((u "br" ++ [252%N] ++ u "cke") ∉ expected) ∧
  name ∈ audit_street_type ∅ name.
Proof.
  intros name. split; [by vm_compute|]. split.
  - unfold expected. rewrite !elem_of_cons, elem_of_nil.
    intros Hin. repeat (destruct Hin as [Hin|Hin]; [by vm_compute in Hin|]). done.
  - unfold audit_street_type. rewrite bool_decide_true by (by vm_compute).
    apply elem_of_union_l, elem_of_singleton. done.
Qed.

(** ** The shaper *)

Section ShapeFacts.
Context `{CaseTable}.
Implicit Types (k : str) (element tag : Element) (tags : list TagRow).

Lemma span_lower_spec k :
  k = (span_lower k).1 ++ (span_lower k).2 ∧
  Forall (λ c, lower_or_underscore c = true) (span_lower k).1 ∧
  ∀ c rest, (span_lower k).2 = c :: rest → lower_or_underscore c = false.
Proof.
  induction k as [|c k (E & Hall & Hhd)]; simpl.
  - repeat split; [done|]. by intros.
  - destruct (lower_or_underscore c) eqn:Hc.
    + destruct (span_lower k) as [seg rest]. simpl in *.
      repeat split; [by rewrite E at 1 | by constructor | done].
    + simpl. repeat split; [done|]. by intros ?? [= <- _].
Qed.

(** What the pattern [^([a-z]|_)+:([a-z]|_)+] asks of a key. *)
Lemma lower_colon_search_spec k :
  lower_colon_search k = true ↔
  ∃ seg c rest, k = seg ++ u ":" ++ c :: rest ∧ seg ≠ [] ∧
                Forall (λ c, lower_or_underscore c = true) seg ∧
                lower_or_underscore c = true.
Proof.
  unfold lower_colon_search. split.
  - pose proof (span_lower_spec k) as (E & Hall & Hhd).
    destruct (span_lower k) as [[|s seg] [|colon [|c rest]]]; try done.
    simpl in *. intros [->%N.eqb_eq Hc]%andb_true_iff.
    exists (s :: seg), c, rest. by repeat split.
  - intros (seg & c & rest & -> & Hne & Hseg & Hc).
    assert (span_lower (seg ++ u ":" ++ c :: rest) = (seg, u ":" ++ c :: rest)) as E.
    { clear Hne. induction Hseg as [|d seg Hd _ IH]; [done|].
      rewrite <-app_comm_cons. cbn [span_lower]. by rewrite Hd, IH. }
    rewrite E. destruct seg; [done|]. simpl. by rewrite Hc.
Qed.

Lemma split1_colon seg rest :
  Forall (λ c, lower_or_underscore c = true) seg →
  Py.split1 (seg ++ u ":" ++ rest) (u ":") = [seg; rest].
Proof.
  intros Hseg. apply split1_first_occurrence. split; [done|].
  intros b a E. destruct (decide (length seg ≤ length b)) as [|Hlt]; [done|].
  exfalso.
  assert ((seg ++ u ":" ++ rest) !! length b = (b ++ u ":" ++ a) !! length b) as E'
    by (by rewrite E).
  rewrite lookup_app_l in E' by lia.
  rewrite (lookup_app_r b) in E' by lia. rewrite Nat.sub_diag in E'. simpl in E'.
  rewrite Forall_lookup in Hseg. by apply Hseg in E'.
Qed.

Lemma tag_type_key_colon k :
  problemchars_search k = false → lower_colon_search k = true →
  ∃ type key, tag_type_key k = Ok (Some type, Some key) ∧
              type ++ u ":" ++ key = k ∧ 58%N ∉ type.
Proof.
  intros Hpc Hlc. unfold tag_type_key. rewrite Hpc, Hlc. simpl negb. cbv iota.
  apply lower_colon_search_spec in Hlc as (seg & c & rest & -> & _ & Hseg & _).
  rewrite (split1_colon seg (c :: rest) Hseg). simpl.
  exists seg, (c :: rest). split; [done|]. split; [done|].
  intros Hin. rewrite Forall_forall in Hseg. by apply Hseg in Hin.
Qed.

Lemma tag_type_key_regular k :
  problemchars_search k = false → 58%N ∉ k →
  tag_type_key k = Ok (Some (u "regular"), Some k).
Proof.
  intros Hpc Hno. unfold tag_type_key. rewrite Hpc. simpl negb. cbv iota.
  destruct (lower_colon_search k) eqn:Hlc; [|done].
  apply lower_colon_search_spec in Hlc as (seg & c & rest & -> & _).
  destruct Hno. apply elem_of_app. right. apply list_elem_of_here.
Qed.

Lemma shape_tag_row element tag k row :
  get tag (u "k") = Some k → shape_tag element tag = Ok row →
  ∃ type key, tag_type_key k = Ok (type, key) ∧
              row_type row = type ∧ row_key row = key.
Proof.
  intros Hk. unfold shape_tag. rewrite Hk.
  destruct (tag_value tag) as [value|]; [|done]. simpl.
  destruct (tag_type_key k) as [[type key]|]; [|done]. simpl.
  intros [= <-]. by exists type, key.
Qed.
End ShapeFacts.

(** C9: for a raw key without problem character, lines 208-217 return the
    fields of the row; when the key matches the colon pattern, [type] and
    [key] are the parts around its first colon, [type + ":" + key] is the raw
    key, and when the key holds no colon, [type] is "regular" and [key] the raw
    key.  Every row that the loop builds for a tag with this key carries these
    fields. *)
Theorem key_split_law `{CaseTable} (k : str) :
  problemchars_search k = false →
  (lower_colon_search k = true →
     ∃ type key,
       tag_type_key k = Ok (Some type, Some key) ∧
       type ++ u ":" ++ key = k ∧ (58%N ∉ type) ∧
       ∀ element tag row,
         get tag (u "k") = Some k → shape_tag element tag = Ok row →
         row_type row = Some type ∧ row_key row = Some key) ∧
  (58%N ∉ k →
     tag_type_key k = Ok (Some (u "regular"), Some k) ∧
     ∀ element tag row,
       get tag (u "k") = Some k → shape_tag element tag = Ok row →
       row_type row = Some (u "regular") ∧ row_key row = Some k).
Proof.
  intros Hpc. split.
  - intros Hlc. destruct (tag_type_key_colon k Hpc Hlc) as (type & key & Hok & E & Hfirst).
    exists type, key. split; [done|]. split; [done|]. split; [done|].
    intros element tag row Hk Hrow.
    destruct (shape_tag_row element tag k row Hk Hrow) as (t' & k' & Hok' & <- & <-).
    split; congruence.
  - intros Hno. pose proof (tag_type_key_regular k Hpc Hno) as Hok.
    split; [done|]. intros element tag row Hk Hrow.
    destruct (shape_tag_row element tag k row Hk Hrow) as (t' & k' & Hok' & <- & <-).
    split; congruence.
Qed.

Lemma key_split_law_witness :
  (∃ type key, tag_type_key (u "addr:postcode") = Ok (Some type, Some key) ∧
               type ++ u ":" ++ key = u "addr:postcode") ∧
  tag_type_key (u "amenity") = Ok (Some (u "regular"), Some (u "amenity")).
Proof.
  split.
  - destruct (proj1 (@key_split_law latin1 (u "addr:postcode") eq_refl) eq_refl)
      as (type & key & Hok & E & _).
    by exists type, key.
  - refine (proj1 (proj2 (@key_split_law latin1 (u "amenity") eq_refl) _)).
    apply (bool_decide_unpack _). vm_compute. exact I.
Defined.

Example key_addr_postcode :
  tag_type_key (u "addr:postcode") = Ok (Some (u "addr"), Some (u "postcode")).
Proof. vm_compute. reflexivity. Qed.

Section ShapeCounts.
Context `{CaseTable}.
Implicit Types (element : Element) (todo : list Element).

Lemma shape_tags_length element todo tags rows :
  shape_tags element todo tags = Ok rows →
  length rows = length tags + length todo.
Proof.
  revert tags. induction todo as [|tag todo IH]; intros tags; simpl.
  - intros [= <-]. lia.
  - destruct (shape_tag element tag) as [d|]; [|done]. simpl.
    intros Hrows%IH. rewrite length_app in Hrows. simpl in Hrows. lia.
Qed.

Lemma shape_nds_spec element todo pos way_nodes :
  shape_nds element todo pos way_nodes =
  way_nodes ++ imap (λ i nd, {| ref_id := get element (u "id");
                                node_id := get nd (u "ref");
                                position := pos + i |}) todo.
Proof.
  revert pos way_nodes. induction todo as [|nd todo IH]; intros pos way_nodes; simpl.
  - by rewrite app_nil_r.
  - rewrite IH, <-app_assoc. simpl. rewrite Nat.add_0_r. do 2 f_equal.
    apply imap_ext. intros i x _. simpl. f_equal. lia.
Qed.

Lemma shape_nds_positions element todo :
  position <$> shape_nds element todo 0 [] = seq 0 (length todo) ∧
  node_id <$> shape_nds element todo 0 [] = (λ nd, get nd (u "ref")) <$> todo.
Proof.
  rewrite shape_nds_spec. simpl. rewrite !fmap_imap. split.
  - rewrite (imap_ext _ (λ i _, id i)) by done.
    by rewrite (imap_seq_0 todo id), list_fmap_id.
  - rewrite (imap_ext _ (const (λ nd, get nd (u "ref")))) by done.
    apply imap_const.
Qed.

(** In an OSM document the children of a node or way have no children of
    their own; [iter] then walks the children of the element. *)
Lemma iter_flat element name :
  tag element ≠ name →
  Forall (λ c, children c = []) (children element) →
  iter element name = filter (λ c, tag c = name) (children element).
Proof.
  intros Htag Hflat. unfold iter. destruct element as [t a cs]. simpl in *.
  rewrite filter_cons_False by done. f_equal.
  induction Hflat as [|[t' a' cs'] cs Hc _ IH]; [done|].
  simpl in Hc. subst cs'. simpl. by rewrite IH.
Qed.

Lemma tag_type_key_returns k : ∃ fields, tag_type_key k = Ok fields.
Proof.
  destruct (problemchars_search k) eqn:Hpc.
  - unfold tag_type_key. rewrite Hpc. simpl. eauto.
  - destruct (lower_colon_search k) eqn:Hlc.
    + destruct (tag_type_key_colon k Hpc Hlc) as (type & key & Hok & _). eauto.
    + unfold tag_type_key. rewrite Hpc, Hlc. simpl. eauto.
Qed.

Lemma shape_tag_returns element tag :
  well_formed_tag tag → ∃ row, shape_tag element tag = Ok row.
Proof.
  intros (k & Hk & Hstreet & Hphone). unfold shape_tag, tag_value. rewrite Hk.
  destruct (tag_type_key_returns k) as [[type key] Hfields].
  repeat case_bool_decide; simplify_eq.
  - destruct Hstreet as (c & v & ->); [done|].
    destruct (update_name_nonempty c v mapping) as [y ->]; [done|].
    unfold mbind, result_bind, mret, result_ret. rewrite Hfields. eauto.
  - destruct Hphone as [v ->]; [done|].
    unfold mbind, result_bind, mret, result_ret. rewrite Hfields. eauto.
  - unfold mbind, result_bind, mret, result_ret. rewrite Hfields. eauto.
Qed.

Lemma shape_tags_returns element todo tags :
  Forall well_formed_tag todo → ∃ rows, shape_tags element todo tags = Ok rows.
Proof.
  intros Hwf. revert tags. induction Hwf as [|tag todo Htag _ IH]; intros tags; simpl.
  - eauto.
  - destruct (shape_tag_returns element tag Htag) as [row ->]. simpl. apply IH.
Qed.


(** Whenever [shape_element] returns, there is one row per [tag] that
    [iter] yields, and for a way one row per [nd], numbered from 0 in
    document order. *)
Lemma shape_element_counts element shaped :
  shape_element element = Ok (Some shaped) →
  match shaped with
  | ShapedNode _ node_tags =>
      tag element = u "node" ∧
      length node_tags = length (iter element (u "tag"))
  | ShapedWay _ way_nodes way_tags =>
      tag element = u "way" ∧
      length way_tags = length (iter element (u "tag")) ∧
      length way_nodes = length (iter element (u "nd")) ∧
      position <$> way_nodes = seq 0 (length (iter element (u "nd"))) ∧
      node_id <$> way_nodes = (λ nd, get nd (u "ref")) <$> iter element (u "nd")
  end.
Proof.
  unfold shape_element.
  destruct (shape_tags element (iter element (u "tag")) []) as [tags|] eqn:Htags; [|done].
  apply shape_tags_length in Htags. simpl in *.
  repeat case_bool_decide; intros [= <-].
  - done.
  - destruct (shape_nds_positions element (iter element (u "nd"))) as [Hpos Hids].
    repeat split; try done.
    rewrite <-(length_fmap position), Hpos. apply length_seq.
Qed.
End ShapeCounts.

(** C10, as the code runs it.  The node has one child tag, the street name
    "".  [update_name] raises IndexError on the empty name, the exception
    leaves [shape_element], and no row is produced for the tag. *)
Theorem shape_element_empty_street `{CaseTable} :
  length (iter empty_street_node (u "tag")) = 1 ∧
  shape_element empty_street_node = Raise IndexError.
Proof. split; vm_compute; reflexivity. Qed.

(** ** Runs on the scenarios of the design document *)

Example phone_030 : update_phone_num (u "030 1234567") = u "+49 30 1234567".
Proof. vm_compute. reflexivity. Qed.

Example name_prenzlauer :
  @update_name latin1 (u "Prenzlauer Str.") mapping = Ok (u "Prenzlauer Stra" ++ [223%N] ++ u "e").
Proof. vm_compute. reflexivity. Qed.

Example name_lindenstr :
  @update_name latin1 (u "lindenstr") mapping = Ok (u "Lindenstra" ++ [223%N] ++ u "e").
Proof. vm_compute. reflexivity. Qed.

Example shape_sample_way :
  @shape_element latin1 sample_way =
  Ok (Some (ShapedWay
    [ (u "id", Some (u "7")); (u "user", None); (u "uid", None); (u "version", None);
      (u "changeset", None); (u "timestamp", None) ]
    [ {| ref_id := Some (u "7"); node_id := Some (u "11"); position := 0 |};
      {| ref_id := Some (u "7"); node_id := Some (u "12"); position := 1 |} ]
    [ {| row_id := Some (u "7"); row_value := Some (u "10405");
         row_type := Some (u "addr"); row_key := Some (u "postcode") |};
      {| row_id := Some (u "7"); row_value := Some (u "+49 30 1234567");
         row_type := Some (u "regular"); row_key := Some (u "phone") |} ])).
Proof. vm_compute. reflexivity. Qed.


(** ** Further properties of the phone normaliser *)

Section PhoneMore.
Implicit Types (num rest before after : str).

Lemma strip_digits num : Forall (λ c, is_digit c = true) (strip_non_digits num).
Proof.
  apply Forall_forall. intros c Hc. by apply list_elem_of_filter in Hc as [? _].
Qed.

Lemma strip_fixed num :
  Forall (λ c, is_digit c = true) num → strip_non_digits num = num.
Proof.
  unfold strip_non_digits, str. induction 1 as [|c num Hc _ IH]; [done|].
  by rewrite filter_cons_True, IH.
Qed.

Lemma lstrip_Forall (P : char → Prop) s chars :
  Forall P s → Forall P (Py.lstrip s chars).
Proof.
  destruct (lstrip_spec s chars) as (stripped & E & _). intros Hs.
  rewrite E in Hs. by apply Forall_app in Hs as [_ ?].
Qed.

(** After lines 141-150 the string is "+49 " and digits, or, for digits that
    start with "0049", "+49 +49" and digits. *)
Lemma country_prefix_form num :
  ∃ rest, country_prefix num = u "+49 " ++ rest ∧
          (Forall (λ c, is_digit c = true) rest ∨
           ∃ d, rest = u "+49" ++ d ∧ Forall (λ c, is_digit c = true) d).
Proof.
  pose proof (strip_digits num) as Hd. unfold country_prefix.
  destruct (Py.startswith (strip_non_digits num) (u "0049")) eqn:H0049.
  - apply startswith_prefix in H0049 as [t Ht]. rewrite Ht in *.
    exists (u "+49" ++ t). split; [by vm_compute|]. right. exists t. split; [done|].
    by apply Forall_app in Hd as [_ ?].
  - destruct (Py.startswith (strip_non_digits num) (u "49")); simpl.
    + eexists. split; [done|]. left. by apply lstrip_Forall.
    + destruct (Py.startswith (strip_non_digits num) (u "0")).
      * eexists. split; [done|]. left. by apply lstrip_Forall.
      * eexists. split; [done|]. by left.
Qed.

Lemma city_split_cases s :
  (∃ before after, first_occurrence s (u "30") before after ∧ length before ≤ 5 ∧
                   city_split s = u "+49 30 " ++ after) ∨
  city_split s = s.
Proof.
  destruct (Py.contains (u "30") s) eqn:Hc.
  - apply split1_contains in Hc as (before & after & _ & Hfo).
    rewrite (city_split_first _ _ _ Hfo). case_bool_decide; [|by right].
    left. by exists before, after.
  - right. unfold city_split. by rewrite Hc.
Qed.

(** Where the city code can stand for the split to be taken: right after
    "+49 ", or one character later. *)
Lemma reach_cases rest before after :
  first_occurrence (u "+49 " ++ rest) (u "30") before after → length before ≤ 5 →
  (before = u "+49 " ∧ rest = u "30" ++ after) ∨
  (∃ c, before = u "+49 " ++ [c] ∧ rest = c :: u "30" ++ after).
Proof.
  intros [E _] Hlen. unfold u in *. simpl in E.
  destruct before as [|b0 [|b1 [|b2 [|b3 [|b4 [|b5 [|b6 before]]]]]]];
    simpl in Hlen; try lia; simplify_eq/=; eauto.
Qed.

Lemma first_occurrence_canonical X :
  first_occurrence (u "+49 30" ++ X) (u "30") (u "+49 ") X.
Proof.
  split; [done|]. intros b a E. unfold u in *. simpl in *.
  destruct b as [|b0 [|b1 [|b2 [|b3 b]]]]; simplify_eq/=; lia.
Qed.

Lemma update_phone_num_canonical X :
  Forall (λ c, is_digit c = true) X →
  update_phone_num (u "+49 30 " ++ X) = u "+49 30 " ++ X.
Proof.
  intros HX. unfold update_phone_num.
  assert (country_prefix (u "+49 30 " ++ X) = u "+49 30" ++ X) as ->.
  { unfold country_prefix. replace (strip_non_digits (u "+49 30 " ++ X)) with (u "4930" ++ X).
    - by vm_compute.
    - pose proof (strip_fixed X HX) as HX'. unfold strip_non_digits, str in *.
      rewrite filter_app, HX'. by vm_compute. }
  rewrite (city_split_first _ _ _ (first_occurrence_canonical X)).
  by rewrite bool_decide_true by (vm_compute; lia).
Qed.

(** The result is in the standard format exactly when the split of lines
    151-156 is taken. *)
Lemma conformant_reach num :
  u "+49 30 " `prefix_of` update_phone_num num ↔
  ∃ before after, first_occurrence (country_prefix num) (u "30") before after ∧
                  length before ≤ 5.
Proof.
  unfold update_phone_num. split.
  - intros Hpre. destruct (city_split_cases (country_prefix num))
      as [(before & after & Hfo & Hlen & _)|Hsame]; [eauto|].
    rewrite Hsame in Hpre. destruct Hpre as [t Ht].
    destruct (Py.contains (u "30") (country_prefix num)) eqn:Hc.
    + apply split1_contains in Hc as (before & after & _ & Hfo).
      exists before, after. split; [done|].
      destruct Hfo as [_ Hmin]. specialize (Hmin (u "+49 ") (u " " ++ t)).
      rewrite Ht in Hmin. specialize (Hmin eq_refl). simpl in Hmin. lia.
    + apply not_true_iff_false in Hc. destruct Hc. apply contains_occurs.
      exists (u "+49 "), (u " " ++ t). by rewrite Ht.
  - intros (before & after & Hfo & Hlen). rewrite (city_split_first _ _ _ Hfo).
    rewrite bool_decide_true by done. by exists after.
Qed.

Lemma conformant_form num :
  u "+49 30 " `prefix_of` update_phone_num num →
  ∃ X, update_phone_num num = u "+49 30 " ++ X ∧ Forall (λ c, is_digit c = true) X.
Proof.
  intros (before & after & Hfo & Hlen)%conformant_reach.
  unfold update_phone_num. rewrite (city_split_first _ _ _ Hfo).
  rewrite bool_decide_true by done. exists after. split; [done|].
  destruct (country_prefix_form num) as (rest & E & Hrest). rewrite E in Hfo.
  destruct (reach_cases rest before after Hfo Hlen) as [[_ ->]|(c & _ & ->)].
  - destruct Hrest as [Hd|(d & Hd & _)].
    + by apply Forall_app in Hd as [_ ?].
    + unfold u in Hd. simplify_eq/=.
  - destruct Hrest as [Hd|(d & Hd & _)].
    + apply Forall_cons in Hd as [_ Hd]. by apply Forall_app in Hd as [_ ?].
    + unfold u in Hd. simplify_eq/=.
Qed.
End PhoneMore.

Lemma phone_chars_literal (l : str) :
  forallb (λ c, is_digit c || (c =? 43)%N || (c =? 32)%N) l = true →
  Forall phone_char l.
Proof.
  rewrite forallb_forall, Forall_forall. intros Hall c Hc.
  apply list_elem_of_In, Hall in Hc.
  apply orb_true_iff in Hc as [Hc|Hc%N.eqb_eq]; [|by right; right].
  apply orb_true_iff in Hc as [Hc|Hc%N.eqb_eq]; [by left | by right; left].
Qed.

(** X1: the result depends on the digits of the input only; characters that
    are not digits (spaces, brackets, hyphens, "+") do not matter. *)
Theorem update_phone_num_digits_only (num : str) :
  update_phone_num (strip_non_digits num) = update_phone_num num.
Proof.
  unfold update_phone_num, country_prefix.
  by rewrite (strip_fixed _ (strip_digits num)).
Qed.

(** X2: every result starts with the country code "+49 ". *)
Theorem update_phone_num_country_code (num : str) :
  u "+49 " `prefix_of` update_phone_num num.
Proof.
  unfold update_phone_num.
  destruct (city_split_cases (country_prefix num)) as [(before & after & _ & _ & ->) | ->].
  - by exists (u "30 " ++ after).
  - destruct (country_prefix_form num) as (rest & -> & _). by exists rest.
Qed.

(** X3: a result holds digits, "+" and spaces only. *)
Theorem update_phone_num_alphabet (num : str) :
  Forall phone_char (update_phone_num num).
Proof.
  assert (Forall phone_char (country_prefix num)) as Hs.
  { destruct (country_prefix_form num) as (rest & -> & [Hd|(d & -> & Hd)]).
    - apply Forall_app. split.
      + apply phone_chars_literal. by vm_compute.
      + eapply Forall_impl; [exact Hd|]. by left.
    - rewrite !Forall_app. repeat split.
      + apply phone_chars_literal. by vm_compute.
      + apply phone_chars_literal. by vm_compute.
      + eapply Forall_impl; [exact Hd|]. by left. }
  unfold update_phone_num.
  destruct (city_split_cases (country_prefix num))
    as [(before & after & [E _] & _ & ->) | ->]; [|done].
  rewrite E in Hs. apply Forall_app in Hs as [_ Hs]. apply Forall_app in Hs as [_ Hs].
  apply Forall_app. split; [|done].
  apply phone_chars_literal. by vm_compute.
Qed.

(** X4: a number in the standard format, "+49 30 " followed by digits, is
    returned as it is. *)
Theorem update_phone_num_standard (X : str) :
  Forall (λ c, is_digit c = true) X →
  update_phone_num (u "+49 30 " ++ X) = u "+49 30 " ++ X.
Proof. apply update_phone_num_canonical. Qed.

Lemma update_phone_num_standard_witness :
  update_phone_num (u "+49 30 " ++ u "1234567") = u "+49 30 " ++ u "1234567".
Proof.
  apply (update_phone_num_standard (u "1234567")).
  apply Forall_forall. intros c Hc.
  unfold u in Hc. simpl in Hc. rewrite !elem_of_cons, elem_of_nil in Hc.
  destruct Hc as [->|[->|[->|[->|[->|[->|[->|[]]]]]]]]; reflexivity.
Defined.

(** X5: the normalised number passes [audit_phone_num] (it is not added to
    the set of anomalous numbers) exactly when "30" occurs in the string of
    lines 141-150 with at most 5 characters before its first occurrence. *)
Theorem normalised_phone_audit (num : str) :
  update_phone_num num ∉ audit_phone_num ∅ (update_phone_num num) ↔
  ∃ before after, first_occurrence (country_prefix num) (u "30") before after ∧
                  length before ≤ 5.
Proof.
  rewrite <-conformant_reach, <-startswith_prefix. unfold audit_phone_num.
  destruct (Py.startswith (update_phone_num num) (u "+49 30 ")); simpl.
  - split; [done|]. intros _. apply not_elem_of_empty.
  - split; [|done]. intros Hnot. destruct Hnot.
    apply elem_of_union_l. by apply elem_of_singleton.
Qed.

(** X6: on its results in the standard format the function is idempotent. *)
Theorem update_phone_num_idempotent (num : str) :
  u "+49 30 " `prefix_of` update_phone_num num →
  update_phone_num (update_phone_num num) = update_phone_num num.
Proof.
  intros (X & -> & HX)%conformant_form. by apply update_phone_num_canonical.
Qed.

Lemma update_phone_num_idempotent_witness :
  update_phone_num (update_phone_num (u "(030) 123-4567")) =
  update_phone_num (u "(030) 123-4567").
Proof.
  apply (update_phone_num_idempotent (u "(030) 123-4567")).
  apply startswith_prefix. vm_compute. reflexivity.
Defined.

(** X7: an input without any digit, the empty string included, yields the
    bare country code "+49 ". *)
Theorem update_phone_num_no_digit (num : str) :
  Forall (λ c, is_digit c = false) num → update_phone_num num = u "+49 ".
Proof.
  intros Hnum. unfold update_phone_num, country_prefix.
  assert (strip_non_digits num = []) as ->; [|by vm_compute].
  unfold strip_non_digits, str. induction Hnum as [|c num Hc _ IH]; [done|].
  rewrite filter_cons_False by (by rewrite Hc). done.
Qed.

Lemma update_phone_num_no_digit_witness : update_phone_num (u "n/a") = u "+49 ".
Proof.
  apply (update_phone_num_no_digit (u "n/a")).
  unfold u. simpl. repeat constructor.
Defined.

(** ** Further properties of the street-name normaliser and of the audit *)

Section StreetMore.
Context `{CaseTable}.
Implicit Types (s name stem : str) (e : str * str) (o : list (str * str)).

Lemma substitute_nil o : (∀ e, e ∈ o → e ∈ mapping) → substitute [] o = [].
Proof.
  intros Hsub. apply substitute_no_match. intros e He.
  destruct (mapping_entry e (Hsub e He)) as (Hne & _).
  apply not_true_iff_false. intros Hend%endswith_suffix.
  by apply suffix_nil_inv in Hend.
Qed.

(** [replace] up to and including the first occurrence. *)
Lemma replace_first s old new before after :
  old ≠ [] → first_occurrence s old before after →
  Py.replace s old new = before ++ new ++ Py.replace after old new.
Proof.
  intros Hne. revert s. induction before as [|c b IH]; intros s [-> Hmin].
  - simpl. by rewrite replace_match.
  - simpl. rewrite replace_no_match; [|done|].
    + f_equal. apply IH. split; [done|]. intros b' a' E.
      specialize (Hmin (c :: b') a'). simpl in Hmin. rewrite E in Hmin.
      specialize (Hmin eq_refl). lia.
    + apply not_true_iff_false. intros [a Ha]%startswith_prefix.
      specialize (Hmin [] a Ha). simpl in Hmin. lia.
Qed.

Lemma mapping_value_expected e : e ∈ mapping → e.2 ∈ expected.
Proof.
  intros He. unfold expected.
  each_entry He; simpl; rewrite !elem_of_cons; auto.
Qed.

Lemma audit_street_type_token street_types name token :
  token ∈ expected → token `suffix_of` name →
  audit_street_type street_types name = street_types.
Proof.
  intros Htok [stem ->]. unfold audit_street_type. rewrite bool_decide_false; [done|].
  intros [_ Hall]%counter_zero. specialize (Hall token Htok).
  apply not_true_iff_false in Hall. apply Hall, contains_occurs.
  exists stem, []. by rewrite app_nil_r.
Qed.

Lemma update_name_rewrites c s o e :
  (∀ e', e' ∈ o → e' ∈ mapping) → e ∈ o → islower c = false →
  Py.endswith (c :: s) e.1 = true →
  update_name (c :: s) o = Ok (Py.replace (c :: s) e.1 e.2).
Proof.
  intros Hsub He Hc Hend. unfold update_name.
  pose proof (substitute_head c s o Hsub) as Hhd.
  rewrite (substitute_match _ o e Hsub He Hend) in *.
  destruct (Py.replace (c :: s) e.1 e.2) as [|c' y]; [done|].
  injection Hhd as ->. by rewrite Hc.
Qed.
End StreetMore.

(** X8: [update_name] raises on the empty string and on no other input, and
    IndexError is the only exception it raises. *)
Theorem update_name_raises `{CaseTable} (name : str) (o : list (str * str)) (x : exn) :
  o ≡ₚ mapping →
  update_name name o = Raise x ↔ name = [] ∧ x = IndexError.
Proof.
  intros Hp. assert (∀ e, e ∈ o → e ∈ mapping) as Hsub by (intros e; by rewrite Hp).
  split.
  - destruct name as [|c s].
    + unfold update_name. rewrite substitute_nil by done. by intros [= <-].
    + destruct (update_name_nonempty c s o Hsub) as [y ->]. done.
  - intros [-> ->]. unfold update_name. by rewrite substitute_nil.
Qed.

Lemma update_name_raises_witness :
  @update_name latin1 [] mapping = Raise IndexError ↔ [] = ([] : str) ∧ IndexError = IndexError.
Proof. apply (@update_name_raises latin1 [] mapping IndexError). reflexivity. Defined.

(** X9: a name whose first character is not in lower case and that ends
    with none of the keys is returned unchanged. *)
Theorem update_name_passes_through `{CaseTable} (c : char) (s : str) (o : list (str * str)) :
  o ≡ₚ mapping → islower c = false →
  (∀ e, e ∈ mapping → ¬ e.1 `suffix_of` c :: s) →
  update_name (c :: s) o = Ok (c :: s).
Proof.
  intros Hp Hc Hno. unfold update_name. rewrite substitute_no_match.
  - by rewrite Hc.
  - intros e He. apply not_true_iff_false. intros Hend%endswith_suffix.
    apply (Hno e); [by rewrite <-Hp | done].
Qed.

Lemma update_name_passes_through_witness :
  @update_name latin1 (u "Am Ostbahnhof") mapping = Ok (u "Am Ostbahnhof").
Proof.
  apply (@update_name_passes_through latin1 65%N (u "m Ostbahnhof") mapping).
  - reflexivity.
  - reflexivity.
  - intros e He Hend%endswith_suffix. each_entry He; by vm_compute in Hend.
Defined.

(** X10: when a name ends with a key that occurs nowhere else in it, and its
    first character is not in lower case, the result is the name with that
    ending replaced by the value of the key. *)
Theorem update_name_suffix `{CaseTable} (stem : str) (c : char) (s : str)
    (e : str * str) (o : list (str * str)) :
  o ≡ₚ mapping → e ∈ mapping → islower c = false →
  first_occurrence (c :: s) e.1 stem [] →
  update_name (c :: s) o = Ok (stem ++ e.2).
Proof.
  intros Hp He Hc Hfo.
  assert (∀ e', e' ∈ o → e' ∈ mapping) as Hsub by (intros e'; by rewrite Hp).
  destruct (mapping_entry e He) as (Hne & _).
  rewrite (update_name_rewrites c s o e); [|done|by rewrite Hp|done|].
  - rewrite (replace_first _ _ _ stem [] Hne Hfo).
    by rewrite replace_nil, app_nil_r.
  - apply endswith_suffix. destruct Hfo as [-> _]. exists stem. by rewrite app_nil_r.
Qed.

Lemma update_name_suffix_witness :
  @update_name latin1 (u "Prenzlauer Str.") mapping =
  Ok (u "Prenzlauer " ++ (u "Stra" ++ [223%N] ++ u "e")).
Proof.
  apply (@update_name_suffix latin1 (u "Prenzlauer ") 80%N (u "renzlauer Str.")
           (u "Str.", u "Stra" ++ [223%N] ++ u "e") mapping).
  - reflexivity.
  - apply list_elem_of_here.
  - reflexivity.
  - pose proof (first_occurrence_find (u "Prenzlauer Str.") (u "Str.") 11 eq_refl) as Hfo.
    exact Hfo.
Defined.

(** X11: a name that ends with a key and whose first character is not in
    lower case is normalised to a name that the audit of street names does
    not flag: it ends with a token of [expected]. *)
Theorem normalised_name_audit `{CaseTable} (c : char) (s : str) (e : str * str)
    (o : list (str * str)) (street_types : gset str) :
  o ≡ₚ mapping → e ∈ mapping → islower c = false → e.1 `suffix_of` c :: s →
  ∃ y, update_name (c :: s) o = Ok y ∧ e.2 `suffix_of` y ∧
       audit_street_type street_types y = street_types.
Proof.
  intros Hp He Hc Hend.
  assert (∀ e', e' ∈ o → e' ∈ mapping) as Hsub by (intros e'; by rewrite Hp).
  destruct (mapping_entry e He) as (Hne & Hbf & _).
  exists (Py.replace (c :: s) e.1 e.2).
  assert (e.2 `suffix_of` Py.replace (c :: s) e.1 e.2) as Hsuf by (by apply replace_suffix).
  split; [|split; [done|]].
  - apply update_name_rewrites; [done|by rewrite Hp|done|by apply endswith_suffix].
  - eapply audit_street_type_token; [by apply mapping_value_expected | done].
Qed.

Lemma normalised_name_audit_witness :
  ∃ y, @update_name latin1 (u "Danziger Strasse") mapping = Ok y ∧
       (u "Stra" ++ [223%N] ++ u "e") `suffix_of` y ∧
       audit_street_type ∅ y = ∅.
Proof.
  apply (@normalised_name_audit latin1 68%N (u "anziger Strasse")
           (u "Strasse", u "Stra" ++ [223%N] ++ u "e") mapping ∅).
  - reflexivity.
  - apply list_elem_of_further, list_elem_of_here.
  - reflexivity.
  - apply endswith_suffix. vm_compute. reflexivity.
Defined.

Lemma audit_street_type_elem (street_types : gset str) (name x : str) :
  x ∈ audit_street_type street_types name ↔
  x ∈ street_types ∨
  (x = name ∧ ∀ token, token ∈ expected → ¬ ∃ b a, name = b ++ token ++ a).
Proof.
  unfold audit_street_type. case_bool_decide as Hc.
  - apply counter_zero in Hc as [_ Hall].
    rewrite elem_of_union, elem_of_singleton. split.
    + intros [->|?]; [|by left]. right. split; [done|].
      intros token Ht Hocc%contains_occurs. by rewrite (Hall token Ht) in Hocc.
    + intros [?|[-> _]]; auto.
  - split; [by left|]. intros [?|[-> Hall]]; [done|]. destruct Hc.
    apply counter_zero. split; [done|]. intros token Ht.
    apply not_true_iff_false. intros Hocc%contains_occurs. by apply (Hall token).
Qed.

(** X12: after the audit of a name the set holds what it held before and,
    when no token of [expected] occurs in the name, the name; nothing else is
    added and nothing is removed. *)
Theorem audit_street_type_members (street_types : gset str) (name x : str) :
  x ∈ audit_street_type street_types name ↔
  x ∈ street_types ∨
  (x = name ∧ ∀ token, token ∈ expected → ¬ ∃ b a, name = b ++ token ++ a).
Proof. apply audit_street_type_elem. Qed.

(** X13: the order in which two names are audited does not matter, and
    auditing a name a second time changes nothing. *)
Theorem audit_street_type_order (street_types : gset str) (a b : str) :
  audit_street_type (audit_street_type street_types a) b =
    audit_street_type (audit_street_type street_types b) a ∧
  audit_street_type (audit_street_type street_types a) a =
    audit_street_type street_types a.
Proof.
  split; apply set_eq; intros x; rewrite !audit_street_type_elem; tauto.
Qed.

(** ** The audit pass *)

Section AuditPass.
Implicit Types (sets : gset str * gset str) (t elem : Element) (x : str).

Lemma audit_phone_num_elem (phone_nums : gset str) (num x : str) :
  x ∈ audit_phone_num phone_nums num ↔
  x ∈ phone_nums ∨ (x = num ∧ ¬ u "+49 30 " `prefix_of` num).
Proof.
  unfold audit_phone_num. destruct (Py.startswith num (u "+49 30 ")) eqn:Hsw; simpl.
  - apply startswith_prefix in Hsw. split; [by left|]. by intros [?|[_ ?]].
  - assert (¬ u "+49 30 " `prefix_of` num) as Hno.
    { intros Hp%startswith_prefix. congruence. }
    rewrite elem_of_union, elem_of_singleton. split.
    + intros [->|?]; auto.
    + intros [?|[-> _]]; auto.
Qed.

Lemma visited_audited events t : t ∈ visited events ↔ audited events t.
Proof.
  unfold visited, audited. rewrite list_elem_of_bind. split.
  - intros (elem & Ht & Helem). exists elem. split; [done|].
    destruct (bool_decide (tag elem = u "node")) eqn:Hn;
      destruct (bool_decide (tag elem = u "way")) eqn:Hw; simpl in Ht;
      try apply bool_decide_eq_true in Hn; try apply bool_decide_eq_true in Hw;
      auto. by apply elem_of_nil in Ht.
  - intros (elem & Helem & Hkind & Ht). exists elem. split; [|done].
    destruct Hkind as [Hk|Hk]; rewrite (bool_decide_true _ Hk); [done|].
    by rewrite orb_true_r.
Qed.

Lemma audit_tags_app sets l1 l2 :
  audit_tags sets (l1 ++ l2) = audit_tags sets l1 ≫= λ sets', audit_tags sets' l2.
Proof.
  revert sets. induction l1 as [|t l1 IH]; intros sets; simpl; [done|].
  destruct (audit_tag sets t) as [sets'|]; simpl; [apply IH | done].
Qed.

Lemma audit_from_visited sets events :
  audit_from sets events = audit_tags sets (visited events).
Proof.
  revert sets. induction events as [|elem events IH]; intros sets; [done|].
  unfold visited. simpl. fold (visited events). unfold audit_elem.
  rewrite audit_tags_app.
  destruct (bool_decide (tag elem = u "node") || bool_decide (tag elem = u "way")).
  - destruct (audit_tags sets (iter elem (u "tag"))) as [sets'|]; simpl; [apply IH | done].
  - simpl. apply IH.
Qed.

Lemma audit_tag_None sets t : audit_tag sets t = None ↔ audit_key_error t.
Proof.
  unfold audit_tag, is_street_name, is_phone_num, audit_key_error.
  destruct (attrib t !! u "k") as [k|]; simpl; [|by split; [left|]].
  repeat case_bool_decide; subst; simpl;
    destruct (attrib t !! u "v"); simpl; split; try done;
    try (intros [?|[[?|?] ?]]; simplify_eq); auto.
Qed.

Lemma audit_tag_Some sets t sets' :
  audit_tag sets t = Some sets' →
  (∀ x, x ∈ sets'.1 ↔
        x ∈ sets.1 ∨
        (attrib t !! u "k" = Some (u "addr:street") ∧ attrib t !! u "v" = Some x ∧
         ∀ token, token ∈ expected → ¬ ∃ b a, x = b ++ token ++ a)) ∧
  (∀ x, x ∈ sets'.2 ↔
        x ∈ sets.2 ∨
        (attrib t !! u "k" = Some (u "phone") ∧ attrib t !! u "v" = Some x ∧
         ¬ u "+49 30 " `prefix_of` x)).
Proof.
  unfold audit_tag, is_street_name, is_phone_num.
  destruct (attrib t !! u "k") as [k|]; simpl; [|done].
  repeat case_bool_decide; subst; simpl.
  - destruct (attrib t !! u "v") as [v|]; simpl; [|done]. intros [= <-]. simpl. split.
    + intros x. rewrite audit_street_type_elem. split.
      * intros [?|[-> ?]]; auto.
      * intros [?|(_ & [= ->] & ?)]; auto.
    + intros x. split; [by left|]. by intros [?|([= ?] & _)].
  - destruct (attrib t !! u "v") as [v|]; simpl; [|done]. intros [= <-]. simpl. split.
    + intros x. split; [by left|]. by intros [?|([= ?] & _)].
    + intros x. rewrite audit_phone_num_elem. split.
      * intros [?|[-> ?]]; auto.
      * intros [?|(_ & [= ->] & ?)]; auto.
  - intros [= <-]. split; intros x; (split; [by left|]); intros [?|([= ?] & _)]; done.
Qed.

Lemma audit_tags_None sets tags :
  audit_tags sets tags = None ↔ Exists audit_key_error tags.
Proof.
  revert sets. induction tags as [|t tags IH]; intros sets; simpl.
  - split; [done|]. by intros ?%Exists_nil.
  - rewrite Exists_cons, <-(audit_tag_None sets t).
    destruct (audit_tag sets t) as [sets'|]; simpl.
    + rewrite IH. split; [by right|]. by intros [?|?].
    + split; [by left|done].
Qed.

Lemma audit_tags_Some sets tags sets' :
  audit_tags sets tags = Some sets' →
  (∀ x, x ∈ sets'.1 ↔
        x ∈ sets.1 ∨
        ∃ t, t ∈ tags ∧ attrib t !! u "k" = Some (u "addr:street") ∧
             attrib t !! u "v" = Some x ∧
             ∀ token, token ∈ expected → ¬ ∃ b a, x = b ++ token ++ a) ∧
  (∀ x, x ∈ sets'.2 ↔
        x ∈ sets.2 ∨
        ∃ t, t ∈ tags ∧ attrib t !! u "k" = Some (u "phone") ∧
             attrib t !! u "v" = Some x ∧ ¬ u "+49 30 " `prefix_of` x).
Proof.
  revert sets. induction tags as [|t tags IH]; intros sets; simpl.
  - intros [= <-]. split; intros x; (split; [by left|]);
      intros [?|(t & Ht%elem_of_nil & _)]; done.
  - destruct (audit_tag sets t) as [sets1|] eqn:Ht; simpl; [|done].
    intros Hrest. destruct (audit_tag_Some _ _ _ Ht) as [Hs1 Hp1].
    destruct (IH _ Hrest) as [Hs Hp]. split; intros x.
    + rewrite Hs, Hs1. split.
      * intros [[?|?]|(t' & ? & ?)]; [by left| |].
        -- right. exists t. split; [apply list_elem_of_here | done].
        -- right. exists t'. split; [by apply list_elem_of_further | done].
      * intros [?|(t' & [->|?]%elem_of_cons & ?)]; [by left; left|by left; right|].
        right. by exists t'.
    + rewrite Hp, Hp1. split.
      * intros [[?|?]|(t' & ? & ?)]; [by left| |].
        -- right. exists t. split; [apply list_elem_of_here | done].
        -- right. exists t'. split; [by apply list_elem_of_further | done].
      * intros [?|(t' & [->|?]%elem_of_cons & ?)]; [by left; left|by left; right|].
        right. by exists t'.
Qed.
End AuditPass.

(** X14: when the audit pass ends without exception, its first set holds
    exactly the values of the "addr:street" tags of nodes and ways in which no
    token of [expected] occurs, and its second set exactly the values of
    their "phone" tags that do not start with "+49 30 ". *)
Theorem audit_members (events : list Element) (street_types phone_nums : gset str) :
  audit events = Some (street_types, phone_nums) →
  (∀ x, x ∈ street_types ↔
        ∃ t, audited events t ∧ attrib t !! u "k" = Some (u "addr:street") ∧
             attrib t !! u "v" = Some x ∧
             ∀ token, token ∈ expected → ¬ ∃ b a, x = b ++ token ++ a) ∧
  (∀ x, x ∈ phone_nums ↔
        ∃ t, audited events t ∧ attrib t !! u "k" = Some (u "phone") ∧
             attrib t !! u "v" = Some x ∧ ¬ u "+49 30 " `prefix_of` x).
Proof.
  unfold audit. rewrite audit_from_visited. intros [Hs Hp]%audit_tags_Some.
  simpl in *. split; intros x.
  - rewrite Hs. split.
    + intros [?%elem_of_empty|(t & Ht%visited_audited & ?)]; [done|]. by exists t.
    + intros (t & Ht%visited_audited & ?). right. by exists t.
  - rewrite Hp. split.
    + intros [?%elem_of_empty|(t & Ht%visited_audited & ?)]; [done|]. by exists t.
    + intros (t & Ht%visited_audited & ?). right. by exists t.
Qed.

Lemma audit_members_witness :
  ∃ street_types phone_nums,
    audit [sample_way] = Some (street_types, phone_nums) ∧
    (u "030 1234567" ∈ phone_nums ↔
     ∃ t, audited [sample_way] t ∧ attrib t !! u "k" = Some (u "phone") ∧
          attrib t !! u "v" = Some (u "030 1234567") ∧
          ¬ u "+49 30 " `prefix_of` u "030 1234567").
Proof.
  destruct (audit [sample_way]) as [[street_types phone_nums]|] eqn:E.
  - exists street_types, phone_nums. split; [done|].
    apply (proj2 (audit_members [sample_way] street_types phone_nums E)).
  - vm_compute in E. discriminate E.
Defined.

(** X15: the audit pass raises KeyError exactly when a tag of a node or way
    has no key, or is a street name or phone number without value. *)
Theorem audit_key_errors (events : list Element) :
  audit events = None ↔ ∃ t, audited events t ∧ audit_key_error t.
Proof.
  unfold audit. rewrite audit_from_visited, audit_tags_None, Exists_exists.
  split; intros (t & Ht & ?); exists t; (split; [by apply visited_audited | done]).
Qed.

(** ** Further properties of the shaper *)

Section ShapeMore.
Context `{CaseTable}.
Implicit Types (k : str) (element t : Element) (rows : list TagRow).

Lemma lower_not_problem c : lower_or_underscore c = true → c ∉ PROBLEMCHARS.
Proof.
  intros Hc Hin. unfold PROBLEMCHARS, u in Hin. simpl in Hin.
  rewrite !elem_of_cons, elem_of_nil in Hin.
  repeat (destruct Hin as [->|Hin]; [by vm_compute in Hc|]). done.
Qed.

Lemma colon_not_problem : 58%N ∉ PROBLEMCHARS.
Proof. apply (bool_decide_unpack _). by vm_compute. Qed.

Lemma problemchars_search_spec k :
  problemchars_search k = true ↔ ∃ c, c ∈ k ∧ c ∈ PROBLEMCHARS.
Proof.
  unfold problemchars_search. rewrite existsb_exists. split.
  - intros (c & Hc%list_elem_of_In & Hp%bool_decide_eq_true). eauto.
  - intros (c & Hc & Hp). exists c. split; [by apply list_elem_of_In|].
    by apply bool_decide_eq_true.
Qed.

Lemma problemchars_search_app k1 k2 :
  problemchars_search (k1 ++ k2) = problemchars_search k1 || problemchars_search k2.
Proof. apply existsb_app. Qed.

Lemma shape_tag_id element t row :
  shape_tag element t = Ok row → row_id row = get element (u "id").
Proof.
  unfold shape_tag. destruct (tag_value t) as [value|]; [|done]. simpl.
  destruct (get t (u "k")) as [k|]; [|done].
  destruct (tag_type_key k) as [[type key]|]; [|done]. simpl. by intros [= <-].
Qed.

Lemma shape_tags_ids element todo tags rows :
  Forall (λ row, row_id row = get element (u "id")) tags →
  shape_tags element todo tags = Ok rows →
  Forall (λ row, row_id row = get element (u "id")) rows.
Proof.
  revert tags. induction todo as [|t todo IH]; intros tags Htags; simpl.
  - by intros [= <-].
  - destruct (shape_tag element t) as [d|] eqn:Hd; [|done]. simpl.
    apply IH. apply Forall_app. split; [done|].
    constructor; [|done]. by eapply shape_tag_id.
Qed.

Lemma shape_tags_raises element pre t post tags x :
  Forall (λ t', ∃ row, shape_tag element t' = Ok row) pre →
  shape_tag element t = Raise x →
  shape_tags element (pre ++ t :: post) tags = Raise x.
Proof.
  intros Hpre Ht. revert tags. induction Hpre as [|t' pre [row Hrow] _ IH]; intros tags; simpl.
  - by rewrite Ht.
  - rewrite Hrow. simpl. apply IH.
Qed.

(** The shapes that [shape_element] returns. *)
Lemma shape_element_Some element shaped :
  shape_element element = Ok (Some shaped) →
  ∃ rows, shape_tags element (iter element (u "tag")) [] = Ok rows ∧
    ((tag element = u "node" ∧
      shaped = ShapedNode (attribs element NODE_FIELDS) rows) ∨
     (tag element = u "way" ∧
      shaped = ShapedWay (attribs element WAY_FIELDS)
                 (shape_nds element (iter element (u "nd")) 0 []) rows)).
Proof.
  unfold shape_element.
  destruct (shape_tags element (iter element (u "tag")) []) as [rows|]; [|done].
  simpl. repeat case_bool_decide; intros [= <-]; exists rows; auto.
Qed.

Lemma shape_element_None element :
  shape_element element = Ok None →
  tag element ≠ u "node" ∧ tag element ≠ u "way".
Proof.
  unfold shape_element.
  destruct (shape_tags element (iter element (u "tag")) []) as [rows|]; [|done].
  simpl. by repeat case_bool_decide.
Qed.
End ShapeMore.

(** X16: whenever [shape_element] returns a shape, it holds one row for each
    tag that [iter] yields, and for a way one row for each nd, with the
    positions 0, 1, ... and the references in document order. *)
Theorem shape_completeness `{CaseTable} (element : Element) (shaped : Shaped) :
  shape_element element = Ok (Some shaped) →
  match shaped with
  | ShapedNode _ node_tags =>
      tag element = u "node" ∧
      length node_tags = length (iter element (u "tag"))
  | ShapedWay _ way_nodes way_tags =>
      tag element = u "way" ∧
      length way_tags = length (iter element (u "tag")) ∧
      length way_nodes = length (iter element (u "nd")) ∧
      position <$> way_nodes = seq 0 (length (iter element (u "nd"))) ∧
      node_id <$> way_nodes = (λ nd, get nd (u "ref")) <$> iter element (u "nd")
  end.
Proof. apply shape_element_counts. Qed.

Lemma shape_completeness_witness :
  ∃ way way_nodes way_tags,
    @shape_element latin1 sample_way = Ok (Some (ShapedWay way way_nodes way_tags)) ∧
    length way_tags = 2 ∧ position <$> way_nodes = [0; 1] ∧
    node_id <$> way_nodes = [Some (u "11"); Some (u "12")].
Proof.
  pose proof (@shape_completeness latin1 sample_way _ shape_sample_way) as (_ & Ht & _ & Hp & Hn).
  do 3 eexists. split; [exact shape_sample_way|]. split; [exact Ht|]. split; [exact Hp|exact Hn].
Defined.

(** X17: on an element whose tags are all well formed (each has a key, a
    street name has a value that is not empty, a phone number has a value),
    [shape_element] raises nothing, and it returns a shape when the element
    is a node or a way. *)
Theorem shape_element_well_formed `{CaseTable} (element : Element) :
  Forall well_formed_tag (iter element (u "tag")) →
  ∃ shaped, shape_element element = Ok shaped ∧
            (tag element = u "node" ∨ tag element = u "way" → is_Some shaped).
Proof.
  intros Hwf. unfold shape_element.
  destruct (shape_tags_returns element _ [] Hwf) as [rows ->]. simpl.
  repeat case_bool_decide; eexists; (split; [done|]); intros [?|?]; done.
Qed.

Lemma shape_element_well_formed_witness :
  ∃ shaped, @shape_element latin1 sample_way = Ok shaped ∧
            (tag sample_way = u "node" ∨ tag sample_way = u "way" → is_Some shaped).
Proof.
  apply (@shape_element_well_formed latin1 sample_way).
  repeat constructor.
  - exists (u "addr:postcode"). split; [reflexivity|]. split; intros E; by vm_compute in E.
  - exists (u "phone"). split; [reflexivity|]. split; intros E; [by vm_compute in E|].
    by exists (u "030 1234567").
Defined.

(** X18: the body of the tag loop raises in four cases and no other: the
    key is missing (TypeError); the tag is a street name without value
    (AttributeError) or with the empty value (IndexError); the tag is a phone
    number without value (TypeError). *)
Theorem shape_tag_errors `{CaseTable} (element t : Element) (x : exn) :
  shape_tag element t = Raise x ↔
  (get t (u "k") = None ∧ x = TypeError) ∨
  (get t (u "k") = Some (u "addr:street") ∧ get t (u "v") = None ∧ x = AttributeError) ∨
  (get t (u "k") = Some (u "addr:street") ∧ get t (u "v") = Some [] ∧ x = IndexError) ∨
  (get t (u "k") = Some (u "phone") ∧ get t (u "v") = None ∧ x = TypeError).
Proof.
  unfold shape_tag, tag_value.
  destruct (get t (u "k")) as [k|] eqn:Hk.
  - destruct (tag_type_key_returns k) as [[type key] Hfields].
    repeat case_bool_decide; simplify_eq.
    + destruct (get t (u "v")) as [[|c v]|] eqn:Hv.
      * unfold update_name. rewrite substitute_nil by done.
        unfold mbind, result_bind. split.
        -- intros [= <-]. by right; right; left.
        -- intros [[? _]|[(_ & ? & _)|[(_ & _ & ->)|(? & _)]]]; done.
      * destruct (update_name_nonempty c v mapping) as [y ->]; [done|].
        unfold mbind, result_bind, mret, result_ret. rewrite Hfields. split; [done|].
        intros [[? _]|[(_ & ? & _)|[(_ & ? & _)|(? & _)]]]; done.
      * unfold mbind, result_bind. split.
        -- intros [= <-]. by right; left.
        -- intros [[? _]|[(_ & _ & ->)|[(_ & ? & _)|(? & _)]]]; done.
    + destruct (get t (u "v")) as [v|] eqn:Hv.
      * unfold mbind, result_bind, mret, result_ret. rewrite Hfields. split; [done|].
        intros [[? _]|[(? & _)|[(? & _)|(_ & ? & _)]]]; done.
      * unfold mbind, result_bind. split.
        -- intros [= <-]. by right; right; right.
        -- intros [[? _]|[(? & _)|[(? & _)|(_ & _ & ->)]]]; done.
    + unfold mbind, result_bind, mret, result_ret. rewrite Hfields. split; [done|].
      intros [[? _]|[(? & _)|[(? & _)|(? & _)]]]; congruence.
  - repeat case_bool_decide; try done.
    unfold mbind, result_bind, mret, result_ret. split.
    + intros [= <-]. by left.
    + intros [[_ ->]|[(? & _)|[(? & _)|(? & _)]]]; done.
Qed.


(** X19: every row of a shape carries the id of the element it comes from:
    the tag rows in [row_id], the node references in [ref_id]. *)
Theorem shape_owner_ids `{CaseTable} (element : Element) (shaped : Shaped) :
  shape_element element = Ok (Some shaped) →
  match shaped with
  | ShapedNode _ node_tags =>
      Forall (λ row, row_id row = get element (u "id")) node_tags
  | ShapedWay _ way_nodes way_tags =>
      Forall (λ row, row_id row = get element (u "id")) way_tags ∧
      Forall (λ nd, ref_id nd = get element (u "id")) way_nodes
  end.
Proof.
  intros (rows & Hrows & [[_ ->]|[_ ->]])%shape_element_Some.
  - by eapply shape_tags_ids.
  - split; [by eapply shape_tags_ids|].
    rewrite shape_nds_spec. simpl. apply Forall_forall.
    intros nd (i & t & -> & _)%elem_of_lookup_imap. done.
Qed.

Lemma shape_owner_ids_witness :
  ∃ way way_nodes way_tags,
    @shape_element latin1 sample_way = Ok (Some (ShapedWay way way_nodes way_tags)) ∧
    Forall (λ row, row_id row = Some (u "7")) way_tags ∧
    Forall (λ nd, ref_id nd = Some (u "7")) way_nodes.
Proof.
  pose proof (@shape_owner_ids latin1 sample_way _ shape_sample_way) as [Ht Hn].
  do 3 eexists. split; [exact shape_sample_way|]. split; [exact Ht|exact Hn].
Defined.

(** X20: joining and splitting.  For a type made of lower-case letters and
    underscores, not empty, and a key that starts with such a character and
    holds no problem character, the raw key "type:key" is split back into
    that type and that key, also when the key holds further colons. *)
Theorem key_join_split (type key : str) (c : char) :
  type ≠ [] → Forall (λ d, lower_or_underscore d = true) type →
  lower_or_underscore c = true → problemchars_search key = false →
  tag_type_key (type ++ u ":" ++ c :: key) = Ok (Some type, Some (c :: key)).
Proof.
  intros Hne Htype Hc Hkey. unfold tag_type_key.
  assert (problemchars_search (type ++ u ":" ++ c :: key) = false) as ->.
  { rewrite problemchars_search_app. apply orb_false_iff. split.
    - apply not_true_iff_false. intros (d & Hd & Hp)%problemchars_search_spec.
      rewrite Forall_forall in Htype. by apply (lower_not_problem d (Htype d Hd)).
    - change (u ":" ++ c :: key) with ([58%N; c] ++ key).
      rewrite problemchars_search_app, Hkey, orb_false_r.
      apply not_true_iff_false. intros (d & Hd & Hp)%problemchars_search_spec.
      apply elem_of_cons in Hd as [->|Hd]; [by apply colon_not_problem|].
      apply elem_of_cons in Hd as [->|Hd]; [by apply (lower_not_problem c)|].
      by apply elem_of_nil in Hd. }
  assert (lower_colon_search (type ++ u ":" ++ c :: key) = true) as ->.
  { apply lower_colon_search_spec. by exists type, c, key. }
  simpl negb. cbv iota. by rewrite (split1_colon type (c :: key) Htype).
Qed.

Lemma key_join_split_witness :
  tag_type_key (u "addr" ++ u ":" ++ 115%N :: u "treet:name") =
  Ok (Some (u "addr"), Some (115%N :: u "treet:name")).
Proof.
  apply (key_join_split (u "addr") (u "treet:name") 115%N).
  - by vm_compute.
  - apply Forall_forall. intros d Hd. unfold u in Hd. simpl in Hd.
    rewrite !elem_of_cons, elem_of_nil in Hd.
    destruct Hd as [->|[->|[->|[->|[]]]]]; reflexivity.
  - reflexivity.
  - reflexivity.
Defined.

(** X21: lines 208-217 raise for no key, and the fields [type] and [key]
    of the row are left out exactly when the raw key holds a problem
    character. *)
Theorem tag_type_key_fields (k : str) :
  ∃ type key, tag_type_key k = Ok (type, key) ∧
    (type = None ↔ ∃ c, c ∈ k ∧ c ∈ PROBLEMCHARS) ∧
    (key = None ↔ ∃ c, c ∈ k ∧ c ∈ PROBLEMCHARS).
Proof.
  pose proof (problemchars_search_spec k) as Hspec.
  destruct (problemchars_search k) eqn:Hpc.
  - exists None, None. unfold tag_type_key. rewrite Hpc. simpl.
    split; [done|]. split; (split; [intros _; by apply Hspec | done]).
  - assert (¬ ∃ c, c ∈ k ∧ c ∈ PROBLEMCHARS) as Hno by (by intros ?%Hspec).
    destruct (lower_colon_search k) eqn:Hlc.
    + destruct (tag_type_key_colon k Hpc Hlc) as (type & key & Hok & _).
      exists (Some type), (Some key). by repeat split.
    + exists (Some (u "regular")), (Some k). unfold tag_type_key.
      rewrite Hpc, Hlc. by repeat split.
Qed.

(** X22: when the body of the tag loop raises on a tag and on none of the
    tags before it, [shape_element] raises the same exception: the rows of
    the earlier tags are not returned. *)
Theorem shape_element_raises `{CaseTable} (element t : Element)
    (pre post : list Element) (x : exn) :
  iter element (u "tag") = pre ++ t :: post →
  Forall (λ t', ∃ row, shape_tag element t' = Ok row) pre →
  shape_tag element t = Raise x →
  shape_element element = Raise x.
Proof.
  intros Hiter Hpre Ht. unfold shape_element.
  by rewrite Hiter, (shape_tags_raises element pre t post [] x Hpre Ht).
Qed.

Lemma shape_element_raises_witness :
  @shape_element latin1 empty_street_node = Raise IndexError.
Proof.
  apply (@shape_element_raises latin1 empty_street_node
           (Elem (u "tag") (<[ u "k" := u "addr:street" ]> {[ u "v" := [] ]}) [])
           [] [] IndexError).
  - reflexivity.
  - constructor.
  - vm_compute. reflexivity.
Defined.

(** ** Writing the rows *)

Section WriteFacts.
Context `{CaseTable}.
Implicit Types (element : Element) (elements pre post : list Element) (files : Files).

Lemma node_not_way : u "node" ≠ u "way".
Proof. by vm_compute. Qed.

Lemma write_elements_rows elements files0 files :
  write_elements elements files0 = (files, None) →
  nodes_file files =
    nodes_file files0 ++
    ((λ e, attribs e NODE_FIELDS) <$> filter (λ e, tag e = u "node") elements) ∧
  ways_file files =
    ways_file files0 ++
    ((λ e, attribs e WAY_FIELDS) <$> filter (λ e, tag e = u "way") elements) ∧
  way_nodes_file files =
    way_nodes_file files0 ++
    (filter (λ e, tag e = u "way") elements ≫= λ e, shape_nds e (iter e (u "nd")) 0 []) ∧
  (∃ rowss,
      Forall2 (λ e rows, shape_tags e (iter e (u "tag")) [] = Ok rows)
              (filter (λ e, tag e = u "node") elements) rowss ∧
      nodes_tags_file files = nodes_tags_file files0 ++ concat rowss) ∧
  (∃ rowss,
      Forall2 (λ e rows, shape_tags e (iter e (u "tag")) [] = Ok rows)
              (filter (λ e, tag e = u "way") elements) rowss ∧
      way_tags_file files = way_tags_file files0 ++ concat rowss).
Proof.
  revert files0. induction elements as [|e elements IH]; intros files0; simpl.
  - intros [= <-]. rewrite !app_nil_r. repeat split; try done;
      exists []; simpl; rewrite app_nil_r; by split; [constructor|].
  - destruct (shape_element e) as [[shaped|]|x] eqn:Hsh; [| |done].
    + apply shape_element_Some in Hsh as (rows & Hrows & [[Htag ->]|[Htag ->]]).
      * assert (tag e ≠ u "way") as Hnw by (rewrite Htag; apply node_not_way).
        intros (Hn & Hw & Hwn & (r1 & F1 & Hnt) & (r2 & F2 & Hwt))%IH. simpl in *.
        rewrite (filter_cons_True (λ e, tag e = u "node")) by done.
        rewrite (filter_cons_False (λ e, tag e = u "way")) by done.
        repeat split.
        -- by rewrite Hn, <-app_assoc.
        -- done.
        -- done.
        -- exists (rows :: r1). split; [by constructor|]. by rewrite Hnt, <-app_assoc.
        -- by exists r2.
      * assert (tag e ≠ u "node") as Hnn.
        { rewrite Htag. intros E. by apply node_not_way. }
        intros (Hn & Hw & Hwn & (r1 & F1 & Hnt) & (r2 & F2 & Hwt))%IH. simpl in *.
        rewrite (filter_cons_True (λ e, tag e = u "way")) by done.
        rewrite (filter_cons_False (λ e, tag e = u "node")) by done.
        repeat split.
        -- done.
        -- by rewrite Hw, <-app_assoc.
        -- by rewrite Hwn, <-app_assoc.
        -- by exists r1.
        -- exists (rows :: r2). split; [by constructor|]. by rewrite Hwt, <-app_assoc.
    + apply shape_element_None in Hsh as [Hnn Hnw].
      rewrite (filter_cons_False (λ e, tag e = u "node")) by done.
      rewrite (filter_cons_False (λ e, tag e = u "way")) by done. apply IH.
Qed.

Lemma write_elements_raises pre element post files0 x :
  Forall (λ e, ∃ shaped, shape_element e = Ok shaped) pre →
  shape_element element = Raise x →
  write_elements (pre ++ element :: post) files0 =
    ((write_elements pre files0).1, Some x) ∧
  (write_elements pre files0).2 = None.
Proof.
  intros Hpre Hx. revert files0.
  induction Hpre as [|e pre [shaped Hsh] _ IH]; intros files0; simpl.
  - by rewrite Hx.
  - rewrite Hsh. destruct shaped as [[node node_tags|way way_nodes way_tags]|]; apply IH.
Qed.

End WriteFacts.

(** X23: when [process_map] ends without exception, the files hold, in the
    order of the document: one node row per node, with the fields of
    [NODE_FIELDS]; one way row per way, with the fields of [WAY_FIELDS]; the
    node references of the ways, each way numbered from 0; and the tag rows of
    the nodes and of the ways, element by element. *)
Theorem process_map_rows `{CaseTable} (context : list (event * Element)) (files : Files) :
  process_map context = (files, None) →
  let elements := get_element context [u "node"; u "way"] in
  nodes_file files =
    (λ e, attribs e NODE_FIELDS) <$> filter (λ e, tag e = u "node") elements ∧
  ways_file files =
    (λ e, attribs e WAY_FIELDS) <$> filter (λ e, tag e = u "way") elements ∧
  way_nodes_file files =
    (filter (λ e, tag e = u "way") elements ≫= λ e, shape_nds e (iter e (u "nd")) 0 []) ∧
  (∃ rowss,
      Forall2 (λ e rows, shape_tags e (iter e (u "tag")) [] = Ok rows)
              (filter (λ e, tag e = u "node") elements) rowss ∧
      nodes_tags_file files = concat rowss) ∧
  (∃ rowss,
      Forall2 (λ e rows, shape_tags e (iter e (u "tag")) [] = Ok rows)
              (filter (λ e, tag e = u "way") elements) rowss ∧
      way_tags_file files = concat rowss).
Proof. intros Hrun. exact (write_elements_rows _ no_rows files Hrun). Qed.

Lemma process_map_rows_witness :
  ∃ files,
    @process_map latin1 sample_context = (files, None) ∧
    nodes_file files =
      (λ e, attribs e NODE_FIELDS) <$>
        filter (λ e, tag e = u "node") (get_element sample_context [u "node"; u "way"]) ∧
    way_nodes_file files =
      (filter (λ e, tag e = u "way") (get_element sample_context [u "node"; u "way"])
         ≫= λ e, shape_nds e (iter e (u "nd")) 0 []).
Proof.
  destruct (@process_map latin1 sample_context) as [files r] eqn:E.
  assert (r = None) as -> by (vm_compute in E; by injection E as _ <-).
  exists files. split; [done|].
  destruct (@process_map_rows latin1 sample_context files E) as (Hn & _ & Hwn & _).
  by split.
Defined.

(** X24: when [shape_element] raises on an element and on none of the
    elements before it, [process_map] stops with that exception; the files
    hold the rows of the elements before it, and none of the later ones. *)
Theorem process_map_stops `{CaseTable} (context : list (event * Element))
    (pre post : list Element) (element : Element) (x : exn) :
  get_element context [u "node"; u "way"] = pre ++ element :: post →
  Forall (λ e, ∃ shaped, shape_element e = Ok shaped) pre →
  shape_element element = Raise x →
  process_map context = ((write_elements pre no_rows).1, Some x) ∧
  (write_elements pre no_rows).2 = None.
Proof.
  intros Hget Hpre Hx. unfold process_map. rewrite Hget.
  by apply write_elements_raises.
Qed.

Lemma process_map_stops_witness :
  @process_map latin1 failing_context =
    ((@write_elements latin1 [sample_node] no_rows).1, Some IndexError) ∧
  (@write_elements latin1 [sample_node] no_rows).2 = None.
Proof.
  apply (@process_map_stops latin1 failing_context [sample_node] [sample_way]
           empty_street_node IndexError).
  - reflexivity.
  - constructor; [|constructor]. eexists. vm_compute. reflexivity.
  - vm_compute. reflexivity.
Defined.


